(** * NodeModal: path-addressed read and write over JavaScript values

    Shallow embedding of [src/src/features/modals/NodeModal/index.tsx]:
    [getValueAtPath], [setValueAtPath], [jsonPathToString],
    [normalizeNodeData] and the handlers of [NodeModal].

    The values the component handles are JavaScript values.  Objects and
    arrays live in a heap and are shared by reference, since
    [setValueAtPath] copies only the outermost container and then assigns
    into the containers it reaches.  Property reads and writes follow the
    ECMAScript rules for the cases a JSON document can meet (the module is
    strict code, so writing a property of a primitive throws a TypeError).
    Numbers are modelled as integers ([Z]) and strings as ASCII strings.
    Members inherited from the built-in prototypes ([toString],
    [constructor], ...) are a parameter [inh] of the development. *)

From Stdlib Require Import ZArith String Ascii List Bool Lia.
From Stdlib Require Import DecimalN Relations.
From stdpp Require Import base list numbers strings.

Import ListNotations.
Set Warnings "-register-all".
Open Scope string_scope.

(* ------------------------------------------------------------------ *)
(** ** Decimal notation of numbers (Number::toString, ToString) *)

Fixpoint string_of_uint (u : Decimal.uint) : string :=
  match u with
  | Decimal.Nil => ""
  | Decimal.D0 u => String "0" (string_of_uint u)
  | Decimal.D1 u => String "1" (string_of_uint u)
  | Decimal.D2 u => String "2" (string_of_uint u)
  | Decimal.D3 u => String "3" (string_of_uint u)
  | Decimal.D4 u => String "4" (string_of_uint u)
  | Decimal.D5 u => String "5" (string_of_uint u)
  | Decimal.D6 u => String "6" (string_of_uint u)
  | Decimal.D7 u => String "7" (string_of_uint u)
  | Decimal.D8 u => String "8" (string_of_uint u)
  | Decimal.D9 u => String "9" (string_of_uint u)
  end.

Fixpoint uint_of_string (s : string) : option Decimal.uint :=
  match s with
  | EmptyString => Some Decimal.Nil
  | String c s' =>
      match uint_of_string s' with
      | None => None
      | Some u =>
          if Ascii.eqb c "0" then Some (Decimal.D0 u)
          else if Ascii.eqb c "1" then Some (Decimal.D1 u)
          else if Ascii.eqb c "2" then Some (Decimal.D2 u)
          else if Ascii.eqb c "3" then Some (Decimal.D3 u)
          else if Ascii.eqb c "4" then Some (Decimal.D4 u)
          else if Ascii.eqb c "5" then Some (Decimal.D5 u)
          else if Ascii.eqb c "6" then Some (Decimal.D6 u)
          else if Ascii.eqb c "7" then Some (Decimal.D7 u)
          else if Ascii.eqb c "8" then Some (Decimal.D8 u)
          else if Ascii.eqb c "9" then Some (Decimal.D9 u)
          else None
      end
  end.

(** [String(n)] for a non-negative integer [n]. *)
Definition string_of_N (n : N) : string := string_of_uint (N.to_uint n).

(** [String(z)] for an integer-valued number. *)
Definition string_of_Z (z : Z) : string :=
  match z with
  | Z.neg p => "-" ++ string_of_N (Npos p)
  | _ => string_of_N (Z.to_N z)
  end.

Definition N_of_digits (s : string) : option N :=
  match s with
  | EmptyString => None
  | _ => option_map N.of_uint (uint_of_string s)
  end.

(** CanonicalNumericIndexString for integers: [k] is the decimal notation
    of a non-negative integer. *)
Definition canonical_index (k : string) : option N :=
  match N_of_digits k with
  | Some n => if String.eqb (string_of_N n) k then Some n else None
  | None => None
  end.

(** A property key is an array index when it is the canonical decimal
    notation of an integer below 2^32 - 1. *)
Definition array_index (k : string) : option N :=
  match canonical_index k with
  | Some n => if N.ltb n 4294967295 then Some n else None
  | None => None
  end.

(* ------------------------------------------------------------------ *)
(** ** Values, objects and the heap *)

(** A path segment: [NodeData["path"]] is an array of numbers and strings. *)
Inductive seg := SNum (n : N) | SStr (s : string).
Definition path := list seg.

(** Property key of a segment: [cur[seg]] converts a number with
    ToString. *)
Definition key (s : seg) : string :=
  match s with SNum n => string_of_N n | SStr k => k end.

Abbreviation loc := nat (only parsing).

(** [VHost] stands for a built-in object or function (a prototype member). *)
Inductive val :=
  | VUndef | VNull | VBool (b : bool) | VNum (z : Z) | VStr (s : string)
  | VRef (l : loc) | VHost (id : nat).

(** An array keeps its elements (a hole is [None]) and its other
    properties; an ordinary object keeps its properties in enumeration
    order. *)
Inductive obj :=
  | OArr (elems : list (option val)) (named : list (string * val))
  | OObj (props : list (string * val)).

Abbreviation heap := (list obj) (only parsing).

(** The prototype a property read falls back to. *)
Inductive pkind := PObject | PArray | PString | PNumber | PBoolean | PHost (id : nat).

(** Outcome of a JavaScript computation: a value, a thrown exception with
    its message, or a case outside this model ([Exotic]). *)
Inductive res (A : Type) := Ok (a : A) | Throw (msg : string) | Exotic.
Arguments Ok {A} a.
Arguments Throw {A} msg.
Arguments Exotic {A}.

Global Instance res_ret : MRet res := fun _ a => Ok a.
Global Instance res_bind : MBind res := fun _ _ f m =>
  match m with Ok a => f a | Throw e => Throw e | Exotic => Exotic end.

Definition is_undef (v : val) : bool :=
  match v with VUndef => true | _ => false end.

Definition nullish (v : val) : bool :=
  match v with VUndef | VNull => true | _ => false end.

(** [null], a boolean, a number or a string. *)
Definition is_primitive (v : val) : bool :=
  match v with VNull | VBool _ | VNum _ | VStr _ => true | _ => false end.

Definition val_of_opt (o : option val) : val :=
  match o with Some v => v | None => VUndef end.

Fixpoint assoc {A} (k : string) (ps : list (string * A)) : option A :=
  match ps with
  | [] => None
  | (k', v) :: ps' => if String.eqb k k' then Some v else assoc k ps'
  end.

(** Before which existing key a new key [k] is inserted: array indices
    come first in ascending order, other keys in creation order. *)
Definition goes_before (k k' : string) : bool :=
  match array_index k, array_index k' with
  | Some n, Some n' => N.ltb n n'
  | Some _, None => true
  | None, _ => false
  end.

Fixpoint add_prop {A} (k : string) (v : A) (ps : list (string * A)) :=
  match ps with
  | [] => [(k, v)]
  | (k', v') :: ps' =>
      if goes_before k k' then (k, v) :: ps else (k', v') :: add_prop k v ps'
  end.

Fixpoint replace_prop {A} (k : string) (v : A) (ps : list (string * A)) :=
  match ps with
  | [] => []
  | (k', v') :: ps' =>
      if String.eqb k k' then (k', v) :: ps' else (k', v') :: replace_prop k v ps'
  end.

(** [o[k] = v] on an ordinary own data property: an existing key keeps its
    place, a new key takes its place in enumeration order. *)
Definition put_prop {A} (k : string) (v : A) (ps : list (string * A)) :=
  match assoc k ps with
  | Some _ => replace_prop k v ps
  | None => add_prop k v ps
  end.

(** [a[n] = v] on an array: beyond the end the array grows, with holes. *)
Definition put_elem (n : nat) (v : val) (es : list (option val)) :=
  if Nat.ltb n (length es) then <[n := Some v]> es
  else (es ++ repeat None (n - length es) ++ [Some v])%list.

(** Own property [k] of an object. *)
Definition own (k : string) (o : obj) : option val :=
  match o with
  | OArr es nm =>
      match array_index k with
      | Some n => match es !! N.to_nat n with Some (Some v) => Some v | _ => None end
      | None => assoc k nm
      end
  | OObj ps => assoc k ps
  end.

Definition set_own (k : string) (v : val) (o : obj) : obj :=
  match o with
  | OArr es nm =>
      match array_index k with
      | Some n => OArr (put_elem (N.to_nat n) v es) nm
      | None => OArr es (put_prop k v nm)
      end
  | OObj ps => OObj (put_prop k v ps)
  end.

Definition is_arr (o : obj) : bool :=
  match o with OArr _ _ => true | OObj _ => false end.

Definition alloc (h : heap) (o : obj) : heap * loc := ((h ++ [o])%list, length h).

Section Model.

(** Members of the built-in prototypes: [inh k p] is what [x[p]] yields
    when [x] has no own property [p] and its prototype chain is [k]. *)
Variable inh : pkind -> string -> val.
(** Prototype members are built-in values, never objects of the heap. *)
Hypothesis inh_noref : forall k p l, inh k p <> VRef l.

(** [o[k]] on an object or array [o] of the heap. *)
Definition obj_get (o : obj) (k : string) : val :=
  match own k o with
  | Some x => x
  | None =>
      match o with
      | OArr es _ =>
          if String.eqb k "length" then VNum (Z.of_nat (length es)) else inh PArray k
      | OObj _ => inh PObject k
      end
  end.

(** [v[k]]: reading a property (the [[Get]] of ECMAScript); a string has
    its characters at the integer keys below its length. *)
Definition get_prop (h : heap) (v : val) (k : string) : res val :=
  match v with
  | VUndef => Throw "Cannot read properties of undefined"
  | VNull => Throw "Cannot read properties of null"
  | VBool _ => Ok (inh PBoolean k)
  | VNum _ => Ok (inh PNumber k)
  | VStr s =>
      if String.eqb k "length" then Ok (VNum (Z.of_nat (String.length s)))
      else match canonical_index k with
           | Some n =>
               match String.get (N.to_nat n) s with
               | Some c => Ok (VStr (String c EmptyString))
               | None => Ok (inh PString k)
               end
           | None => Ok (inh PString k)
           end
  | VHost id => Ok (inh (PHost id) k)
  | VRef l =>
      match h !! l with
      | None => Exotic
      | Some o => Ok (obj_get o k)
      end
  end.

(** [v[k] = x] in strict code. *)
Definition set_prop (h : heap) (v : val) (k : string) (x : val) : res heap :=
  match v with
  | VUndef => Throw "Cannot set properties of undefined"
  | VNull => Throw "Cannot set properties of null"
  | VBool _ | VNum _ | VStr _ => Throw "Cannot create property on primitive"
  | VHost _ => Exotic
  | VRef l =>
      match h !! l with
      | None => Exotic
      | Some o =>
          if is_arr o && String.eqb k "length" then Exotic
          else if String.eqb k "__proto__" && negb (bool_decide (is_Some (own k o)))
          then Exotic
          else Ok (<[l := set_own k x o]> h)
      end
  end.

Definition is_array_val (h : heap) (v : val) : bool :=
  match v with
  | VRef l => match h !! l with Some (OArr _ _) => true | _ => false end
  | _ => false
  end.

Fixpoint string_props (i : nat) (s : string) : list (string * val) :=
  match s with
  | EmptyString => []
  | String c s' => (string_of_N (N.of_nat i), VStr (String c EmptyString)) :: string_props (S i) s'
  end.

Fixpoint elem_props (i : nat) (es : list (option val)) : list (string * val) :=
  match es with
  | [] => []
  | Some v :: es' => (string_of_N (N.of_nat i), v) :: elem_props (S i) es'
  | None :: es' => elem_props (S i) es'
  end.

(** [{ ...v }]: a fresh object with the own enumerable properties of [v]. *)
Definition obj_spread (h : heap) (v : val) : res obj :=
  match v with
  | VUndef | VNull | VBool _ | VNum _ => Ok (OObj [])
  | VStr s => Ok (OObj (string_props 0 s))
  | VRef l =>
      match h !! l with
      | Some (OObj ps) => Ok (OObj ps)
      | Some (OArr es nm) => Ok (OObj (elem_props 0 es ++ nm)%list)
      | None => Exotic
      end
  | VHost _ => Exotic
  end.

(** [[ ...a ]]: the array iterator reads [a[0]], ..., [a[length - 1]];
    a hole is read through the prototype. *)
Definition arr_spread (es : list (option val)) : obj :=
  OArr (imap (fun i e => Some (match e with
                               | Some v => v
                               | None => inh PArray (string_of_N (N.of_nat i))
                               end)) es) [].

(** [Array.isArray(obj) ? [...obj] : { ...obj }] *)
Definition clone_of (h : heap) (v : val) : res obj :=
  if is_array_val h v then
    match v with
    | VRef l => match h !! l with Some (OArr es _) => Ok (arr_spread es) | _ => Exotic end
    | _ => Exotic
    end
  else obj_spread h v.

(** [typeof path[i + 1] === "number" ? [] : {}] *)
Definition empty_for (nxt : seg) : obj :=
  match nxt with SNum _ => OArr [] [] | SStr _ => OObj [] end.

(** The [for] loop of [setValueAtPath], from the segment [i] on. *)
Fixpoint set_loop (h : heap) (cur : val) (p : path) (value : val) : res heap :=
  match p with
  | [] => Ok h
  | [s] => set_prop h cur (key s) value
  | s :: ((nxt :: _) as rest) =>
      x ← get_prop h cur (key s);
      h' ← (if is_undef x
            then let '(h1, f) := alloc h (empty_for nxt) in
                 set_prop h1 cur (key s) (VRef f)
            else Ok h);
      cur' ← get_prop h' cur (key s);
      set_loop h' cur' rest value
  end.

(** [setValueAtPath(obj, path, value)]: the new heap and the returned value. *)
Definition setValueAtPath (h : heap) (obj : val) (p : option path) (value : val)
  : res (heap * val) :=
  match p with
  | None | Some [] => Ok (h, value)
  | Some p =>
      o ← clone_of h obj;
      let '(h1, c) := alloc h o in
      h2 ← set_loop h1 (VRef c) p value;
      Ok (h2, VRef c)
  end.

(** The [for ... of] loop of [getValueAtPath]. *)
Fixpoint walk (h : heap) (cur : val) (p : path) : res val :=
  match p with
  | [] => Ok cur
  | s :: rest =>
      if nullish cur then Ok VUndef
      else x ← get_prop h cur (key s); walk h x rest
  end.

(** [getValueAtPath(obj, path)] *)
Definition getValueAtPath (h : heap) (obj : val) (p : option path) : res val :=
  match p with
  | None | Some [] => Ok obj
  | Some p => walk h obj p
  end.

End Model.

(* ------------------------------------------------------------------ *)
(** ** JSON texts: trees, [JSON.parse] materialisation, [JSON.stringify] *)

(** A value with the heap unfolded: what deep equality compares and what
    [JSON.stringify] serialises. *)
Inductive jtree :=
  | JUndef | JNull | JBool (b : bool) | JNum (z : Z) | JStr (s : string)
  | JHost (id : nat)
  | JArr (xs : list jtree) (named : list (string * jtree))
  | JObj (kvs : list (string * jtree)).

(** The tree of own properties reachable from [v], following at most
    [fuel] references; a hole reads as [JUndef]. *)
Fixpoint snap (fuel : nat) (h : heap) (v : val) : option jtree :=
  match v with
  | VUndef => Some JUndef
  | VNull => Some JNull
  | VBool b => Some (JBool b)
  | VNum z => Some (JNum z)
  | VStr s => Some (JStr s)
  | VHost id => Some (JHost id)
  | VRef l =>
      match fuel with
      | O => None
      | S f =>
          match h !! l with
          | None => None
          | Some (OArr es nm) =>
              xs ← mapM (fun e => match e with Some x => snap f h x | None => Some JUndef end) es;
              ys ← mapM (fun '(k, x) => t ← snap f h x; Some (k, t)) nm;
              Some (JArr xs ys)
          | Some (OObj ps) =>
              ys ← mapM (fun '(k, x) => t ← snap f h x; Some (k, t)) ps;
              Some (JObj ys)
          end
      end
  end.

(** The objects [JSON.parse] creates for a JSON text of tree [t]: children
    first, object members added in text order. *)
Fixpoint alloc_tree (h : heap) (t : jtree) : heap * val :=
  match t with
  | JUndef => (h, VUndef)
  | JNull => (h, VNull)
  | JBool b => (h, VBool b)
  | JNum z => (h, VNum z)
  | JStr s => (h, VStr s)
  | JHost id => (h, VHost id)
  | JArr xs _ =>
      let '(h1, vs) :=
        (fix go h xs := match xs with
                        | [] => (h, [])
                        | x :: xs' => let '(h1, v) := alloc_tree h x in
                                      let '(h2, vs) := go h1 xs' in (h2, v :: vs)
                        end) h xs in
      let '(h2, l) := alloc h1 (OArr (map Some vs) []) in (h2, VRef l)
  | JObj kvs =>
      let '(h1, ps) :=
        (fix go h kvs := match kvs with
                         | [] => (h, [])
                         | (k, x) :: kvs' => let '(h1, v) := alloc_tree h x in
                                             let '(h2, ps) := go h1 kvs' in (h2, (k, v) :: ps)
                         end) h kvs in
      let '(h2, l) := alloc h1 (OObj (fold_left (fun acc '(k, v) => put_prop k v acc) ps [])) in
      (h2, VRef l)
  end.

Definition dq : string := String (Ascii.ascii_of_nat 34) EmptyString.
Definition nl : string := String (Ascii.ascii_of_nat 10) EmptyString.

Definition hex_digit (n : nat) : string :=
  String (Ascii.ascii_of_nat (if Nat.ltb n 10 then 48 + n else 87 + n)) EmptyString.

(** One character of QuoteJSONString. *)
Definition escape_char (c : ascii) : string :=
  let n := Ascii.nat_of_ascii c in
  if Nat.eqb n 34 then "\" ++ dq
  else if Nat.eqb n 92 then "\\"
  else if Nat.eqb n 8 then "\b"
  else if Nat.eqb n 9 then "\t"
  else if Nat.eqb n 10 then "\n"
  else if Nat.eqb n 12 then "\f"
  else if Nat.eqb n 13 then "\r"
  else if Nat.ltb n 32 then "\u00" ++ hex_digit (n / 16) ++ hex_digit (n mod 16)
  else String c EmptyString.

Fixpoint escape (s : string) : string :=
  match s with
  | EmptyString => EmptyString
  | String c s' => escape_char c ++ escape s'
  end.

Definition quote (s : string) : string := dq ++ escape s ++ dq.

(** [Array.prototype.join] on strings. *)
Fixpoint join (sep : string) (xs : list string) : string :=
  match xs with
  | [] => ""
  | [x] => x
  | x :: xs' => x ++ sep ++ join sep xs'
  end.

(** [JSON.stringify(t, null, 2)] at indentation [ind]; [None] is the
    [undefined] it returns for [undefined] and functions. *)
Fixpoint stringify (ind : string) (t : jtree) {struct t} : option string :=
  let ind' := ind ++ "  " in
  match t with
  | JUndef | JHost _ => None
  | JNull => Some "null"
  | JBool true => Some "true"
  | JBool false => Some "false"
  | JNum z => Some (string_of_Z z)
  | JStr s => Some (quote s)
  | JArr xs _ =>
      let items :=
        (fix go xs := match xs with
                      | [] => []
                      | x :: xs' => default "null" (stringify ind' x) :: go xs'
                      end) xs in
      Some (match items with
            | [] => "[]"
            | _ => "[" ++ nl ++ ind' ++ join ("," ++ nl ++ ind') items ++ nl ++ ind ++ "]"
            end)
  | JObj kvs =>
      let items :=
        (fix go kvs := match kvs with
                       | [] => []
                       | (k, x) :: kvs' =>
                           match stringify ind' x with
                           | Some s => (quote k ++ ": " ++ s) :: go kvs'
                           | None => go kvs'
                           end
                       end) kvs in
      Some (match items with
            | [] => "{}"
            | _ => "{" ++ nl ++ ind' ++ join ("," ++ nl ++ ind') items ++ nl ++ ind ++ "}"
            end)
  end.

(* ------------------------------------------------------------------ *)
(** ** [jsonPathToString] *)

(** [path.map(seg => typeof seg === "number" ? seg : `"${seg}"`)], each
    element as [join] renders it. *)
Definition seg_text (s : seg) : string :=
  match s with SNum n => string_of_N n | SStr k => dq ++ k ++ dq end.

Definition jsonPathToString (p : option path) : string :=
  match p with
  | None | Some [] => "$"
  | Some p => "$[" ++ join "][" (map seg_text p) ++ "]"
  end.

(** Whether the character [c] occurs in [s]. *)
Fixpoint has_char (c : ascii) (s : string) : bool :=
  match s with
  | EmptyString => false
  | String c' s' => Ascii.eqb c c' || has_char c s'
  end.

(** A segment whose rendering has no double quote of its own. *)
Definition quote_free (s : seg) : bool :=
  match s with SNum _ => true | SStr k => negb (has_char (Ascii.ascii_of_nat 34) k) end.

(* ------------------------------------------------------------------ *)
(** ** [normalizeNodeData] *)

(** The value of a row of [NodeData["text"]]: a JSON scalar. *)
Inductive rval := RNull | RBool (b : bool) | RNum (z : Z) | RStr (s : string).

Record row := { rkey : option string; rvalue : rval; rtype : string }.

(** [`${v}`] *)
Definition template (v : rval) : string :=
  match v with
  | RNull => "null"
  | RBool true => "true"
  | RBool false => "false"
  | RNum z => string_of_Z z
  | RStr s => s
  end.

Definition jtree_of_rval (v : rval) : jtree :=
  match v with
  | RNull => JNull | RBool b => JBool b | RNum z => JNum z | RStr s => JStr s
  end.

(** Truthiness of [row.key] ([null], [undefined] and [""] are falsy). *)
Definition key_truthy (k : option string) : bool :=
  match k with Some k => negb (String.eqb k "") | None => false end.

(** The object [obj] under construction: its own properties, and whether
    its prototype is still [Object.prototype]. *)
Abbreviation nobj := (list (string * rval) * bool)%type (only parsing).

(** [obj[k] = v] on an object made by [{}]: while the prototype is
    [Object.prototype], the key ["__proto__"] reaches the inherited accessor,
    whose setter makes [null] the prototype and ignores any other primitive;
    every other assignment creates or updates an own data property. *)
Definition assign_key (st : nobj) (k : string) (v : rval) : nobj :=
  let '(o, has_proto) := st in
  if has_proto && String.eqb k "__proto__" then
    match v with RNull => (o, false) | _ => (o, true) end
  else (put_prop k v o, has_proto).

(** One iteration of [nodeRows.forEach]. *)
Definition row_step (st : nobj) (r : row) : nobj :=
  if negb (String.eqb (rtype r) "array") && negb (String.eqb (rtype r) "object") then
    match rkey r with
    | Some k => if key_truthy (Some k) then assign_key st k (rvalue r) else st
    | None => st
    end
  else st.

(** The own properties of [obj] after the loop, in enumeration order. *)
Definition rows_object (rows : list row) : list (string * rval) :=
  fst (fold_left row_step rows ([], true)).

(** [JSON.stringify(obj, null, 2)] of an object: never [undefined]. *)
Definition stringify_object (o : list (string * rval)) : string :=
  default "{}" (stringify "" (JObj (map (fun '(k, v) => (k, jtree_of_rval v)) o))).

Definition normalizeNodeData (nodeRows : option (list row)) : string :=
  match nodeRows with
  | None | Some [] => "{}"
  | Some [r] =>
      if negb (key_truthy (rkey r)) then template (rvalue r)
      else stringify_object (rows_object [r])
  | Some rows => stringify_object (rows_object rows)
  end.

(* ------------------------------------------------------------------ *)
(** ** The [NodeModal] component *)

Global Instance seg_eq_dec : EqDecision seg.
Proof. solve_decision. Defined.

(** A node of the graph store: [path] and [text] (its rows). *)
Record gnode := { npath : option path; ntext : list row }.

(** Calls on the stores, in order. *)
Inductive event :=
  | EvSetContents (contents : string)
  | EvSetGraph (json : string)
  | EvSelect (n : gnode).

(** The component state ([editing], [editValue], [error]), the text
    [getJson()] returns, the file contents and the calls made on the
    stores. [editValue] is [None] when [undefined] was stored in it. *)
Record world := {
  editing : bool;
  editValue : option string;
  error : option string;
  json_text : string;
  file_contents : string;
  log : list event
}.

Definition set_ui (w : world) (ed : bool) (ev : option string) (er : option string) : world :=
  {| editing := ed; editValue := ev; error := er; json_text := json_text w;
     file_contents := file_contents w; log := log w |}.

Definition set_contents (w : world) (s : string) : world :=
  {| editing := editing w; editValue := editValue w; error := error w;
     json_text := json_text w; file_contents := s;
     log := (log w ++ [EvSetContents s])%list |}.

Definition record_event (w : world) (e : event) : world :=
  {| editing := editing w; editValue := editValue w; error := error w;
     json_text := json_text w; file_contents := file_contents w;
     log := (log w ++ [e])%list |}.

Definition node_path (n : option gnode) : option path :=
  match n with Some n => npath n | None => None end.

Definition node_rows (n : option gnode) : list row :=
  match n with Some n => ntext n | None => [] end.

(** [String(editValue)], as [JSON.parse] converts its argument. *)
Definition buffer_text (b : option string) : string :=
  match b with Some s => s | None => "undefined" end.

(** [onChange] of the [Textarea]: [setEditValue(e.currentTarget.value)]. *)
Definition type_text (w : world) (s : string) : world := set_ui w (editing w) (Some s) (error w).

(** The text [getJson()] returns becomes [s] (the document changed
    elsewhere). *)
Definition set_json (w : world) (s : string) : world :=
  {| editing := editing w; editValue := editValue w; error := error w;
     json_text := s; file_contents := file_contents w; log := log w |}.

(** A freshly mounted [NodeModal]: [useState(false)], [useState("")],
    [useState(null)]. *)
Definition mount (text contents : string) : world :=
  {| editing := false; editValue := Some ""; error := None;
     json_text := text; file_contents := contents; log := [] |}.

Section Component.

Variable inh : pkind -> string -> val.
(** [JSON.parse] on a text: the tree it denotes, or the message of its
    SyntaxError. *)
Variable json_parse : string -> string + jtree.
(** The nodes [useGraph.getState().setGraph(json)] builds. *)
Variable graph_nodes : string -> list gnode.

(** [JSON.stringify(v, null, 2)] of a value of heap [h]. *)
Definition stringify_val (h : heap) (v : val) : res (option string) :=
  match snap (S (length h)) h v with
  | Some t => Ok (stringify "" t)
  | None => Exotic
  end.

(** The [try { ... } catch { ... }] block that computes the text shown in
    the edit buffer, in the effect, the Edit button and the Cancel button. *)
Definition current_text (w : world) (nodeData : option gnode) : res (option string) :=
  let fallback := Some (normalizeNodeData (Some (node_rows nodeData))) in
  match json_parse (json_text w) with
  | inl _ => Ok fallback
  | inr t =>
      let '(h, parsed) := alloc_tree [] t in
      match getValueAtPath inh h parsed (node_path nodeData) with
      | Ok current => stringify_val h current
      | Throw _ => Ok fallback
      | Exotic => Exotic
      end
  end.

(** [React.useEffect] run when the selected node changes. *)
Definition on_node_change (w : world) (nodeData : option gnode) : res world :=
  r ← current_text w nodeData; Ok (set_ui w false r None).

(** The Edit button. *)
Definition start_edit (w : world) (nodeData : option gnode) : res world :=
  r ← current_text w nodeData; Ok (set_ui w true r (error w)).

(** The Cancel button. *)
Definition cancel_edit (w : world) (nodeData : option gnode) : res world :=
  r ← current_text w nodeData; Ok (set_ui w false r None).

(** What the Viewing pane shows ([CodeHighlight] when not editing). *)
Definition view_text (nodeData : option gnode) : string :=
  normalizeNodeData (Some (node_rows nodeData)).

(** [handleSave] *)
Definition handleSave (w : world) (nodeData : option gnode) : res world :=
  let w0 := set_ui w (editing w) (editValue w) None in
  match json_parse (buffer_text (editValue w)) with
  | inl msg => Ok (set_ui w0 (editing w0) (editValue w0) (Some msg))
  | inr tn =>
      let '(h1, parsedNew) := alloc_tree [] tn in
      match json_parse (json_text w) with
      | inl msg => Ok (set_ui w0 (editing w0) (editValue w0) (Some msg))
      | inr tw =>
          let '(h2, whole) := alloc_tree h1 tw in
          match setValueAtPath inh h2 whole (node_path nodeData) parsedNew with
          | Throw msg => Ok (set_ui w0 (editing w0) (editValue w0) (Some msg))
          | Exotic => Exotic
          | Ok (h3, updated) =>
              match stringify_val h3 updated with
              | Ok (Some text) =>
                  let w1 := set_contents w0 text in
                  let w2 := record_event w1 (EvSetGraph text) in
                  let w3 :=
                    match node_path nodeData with
                    | Some p =>
                        match List.find (fun n => bool_decide (npath n = Some p))
                                        (graph_nodes text) with
                        | Some found => record_event w2 (EvSelect found)
                        | None => w2
                        end
                    | None => w2
                    end in
                  Ok (set_ui w3 false (editValue w3) (error w3))
              | _ => Exotic
              end
          end
      end
  end.

(** What can happen to the component: the selected node changes (the
    effect runs), the Edit button (rendered when not editing) is clicked,
    the text is typed, the Save or Cancel button (rendered when editing) is
    clicked, or the document changes elsewhere. *)
Inductive ui_step : world -> world -> Prop :=
  | ui_node w n w' : on_node_change w n = Ok w' -> ui_step w w'
  | ui_edit w n w' : editing w = false -> start_edit w n = Ok w' -> ui_step w w'
  | ui_type w s : editing w = true -> ui_step w (type_text w s)
  | ui_save w n w' : editing w = true -> handleSave w n = Ok w' -> ui_step w w'
  | ui_cancel w n w' : editing w = true -> cancel_edit w n = Ok w' -> ui_step w w'
  | ui_doc w s : ui_step w (set_json w s).

End Component.

(* ------------------------------------------------------------------ *)
(** ** A concrete prototype table *)

(** Some members of [Object.prototype], [Array.prototype],
    [String.prototype], [Number.prototype] and [Boolean.prototype]; every
    other name is absent from them.  Concrete runs below only read names
    that no prototype has. *)
Definition object_members : list string :=
  ["constructor"; "toString"; "toLocaleString"; "valueOf"; "hasOwnProperty";
   "isPrototypeOf"; "propertyIsEnumerable"; "__proto__"].

Definition kind_members (k : pkind) : list string :=
  match k with
  | PObject | PHost _ => []
  | PArray => ["push"; "pop"; "map"; "filter"; "slice"; "join"; "indexOf"]
  | PString => ["charAt"; "slice"; "split"; "indexOf"; "trim"]
  | PNumber => ["toFixed"; "toPrecision"]
  | PBoolean => []
  end.

Definition js_inherited (k : pkind) (p : string) : val :=
  if existsb (String.eqb p) (object_members ++ kind_members k)%list then VHost 0 else VUndef.

(* ------------------------------------------------------------------ *)
(** ** Readings of the specification *)

(** The specification's [format]: [$] followed by [[n]] or [["key"]] per
    segment. *)
Definition format_spec (p : path) : string :=
  "$" ++ fold_right String.append "" (map (fun s => "[" ++ seg_text s ++ "]") p).

(** [normalize] as the claim words it: a single keyless row rendered as
    JSON text, otherwise the keyed non-container rows in row order. *)
Definition normalize_claim (rows : list row) : string :=
  match rows with
  | [] => "{}"
  | [r] =>
      match rkey r with
      | None => default "" (stringify "" (jtree_of_rval (rvalue r)))
      | Some _ => default "" (stringify "" (JObj (map (fun '(k, v) => (k, jtree_of_rval v))
                    (if negb (String.eqb (rtype r) "array") && negb (String.eqb (rtype r) "object")
                     then match rkey r with Some k => [(k, rvalue r)] | None => [] end else []))))
      end
  | _ =>
      default "" (stringify "" (JObj (flat_map (fun r =>
        if negb (String.eqb (rtype r) "array") && negb (String.eqb (rtype r) "object")
        then match rkey r with Some k => [(k, jtree_of_rval (rvalue r))] | None => [] end
        else []) rows)))
  end.

(** A row kept in the object: not a container placeholder and with a
    non-empty key. *)
Definition keeps (r : row) : bool :=
  negb (String.eqb (rtype r) "array") && negb (String.eqb (rtype r) "object")
  && key_truthy (rkey r).

(** [obj[key] = value] for a kept row, as the amended sentence reads it: the
    key ["__proto__"], while the object still has its prototype, goes to the
    prototype setter ([null] drops the prototype, other values are ignored);
    any other key sets an own property. *)
Definition assign_amended (st : list (string * rval) * bool) (r : row) :
  list (string * rval) * bool :=
  let k := default "" (rkey r) in
  if snd st && String.eqb k "__proto__" then
    (fst st, match rvalue r with RNull => false | _ => true end)
  else (put_prop k (rvalue r) (fst st), snd st).

(** The own properties of the object made by assigning the kept rows in order. *)
Definition assigned_object (rows : list row) : list (string * rval) :=
  fst (fold_left assign_amended (List.filter keeps rows) ([], true)).

(** [normalize] as amended: [String(value)] for a single row whose key is
    absent or empty; otherwise the object made by assigning the kept rows in
    order, serialised with [JSON.stringify(obj, null, 2)]. *)
Definition normalize_amended (rows : list row) : string :=
  match rows with
  | [] => "{}"
  | [r] => if key_truthy (rkey r) then stringify_object (assigned_object rows)
           else template (rvalue r)
  | _ => stringify_object (assigned_object rows)
  end.

Definition blank_to_none (r : row) : row :=
  match rkey r with
  | Some k => if String.eqb k "" then {| rkey := None; rvalue := rvalue r; rtype := rtype r |} else r
  | None => r
  end.

(* ------------------------------------------------------------------ *)
(** ** Invariants of the heap *)

(** The values stored in an object: its elements and its properties. *)
Definition obj_vals (o : obj) : list val :=
  match o with
  | OArr es nm => (omap (fun e => e) es ++ map snd nm)%list
  | OObj ps => map snd ps
  end.

Definition wf_val (h : heap) (v : val) : Prop :=
  match v with VRef l => l < length h | _ => True end.

(** Every reference stored in the heap points into it. *)
Definition wf_heap (h : heap) : Prop :=
  forall l o v, h !! l = Some o -> v ∈ obj_vals o -> wf_val h v.

(** A value a JSON document can hold or be: no host object. *)
Definition doc_val (h : heap) (v : val) : Prop :=
  match v with VRef l => l < length h | VHost _ => False | _ => True end.

Definition points_to (h : heap) (l l' : loc) : Prop :=
  exists o, h !! l = Some o /\ VRef l' ∈ obj_vals o.

(** No object contains itself, directly or through others. *)
Definition acyclic (h : heap) : Prop :=
  forall l, ~ clos_trans loc (points_to h) l l.

(** Arrays as [JSON.parse] makes them: no holes, no named properties. *)
Definition json_heap (h : heap) : Prop :=
  forall l es nm, h !! l = Some (OArr es nm) -> nm = [] /\ Forall (fun e => is_Some e) es.

(** Each segment of the path names an own property of the value reached. *)
Fixpoint own_path (h : heap) (v : val) (p : path) : Prop :=
  match p with
  | [] => True
  | s :: rest =>
      match v with
      | VRef l => exists o x, h !! l = Some o /\ own (key s) o = Some x /\ own_path h x rest
      | _ => False
      end
  end.

(** Decision procedures for concrete heaps. *)
Definition is_some_b (e : option val) : bool := match e with Some _ => true | None => false end.

Definition json_heapb (h : heap) : bool :=
  forallb (fun o => match o with
                    | OArr es nm => match nm with [] => forallb is_some_b es | _ => false end
                    | OObj _ => true
                    end) h.

(** Every stored reference points to an object allocated before the one
    holding it, as in a heap built children first by [JSON.parse]. *)
Fixpoint refs_backward (i : nat) (h : heap) : bool :=
  match h with
  | [] => true
  | o :: h' =>
      forallb (fun v => match v with VRef l => Nat.ltb l i | _ => true end) (obj_vals o) &&
      refs_backward (S i) h'
  end.

Fixpoint own_pathb (h : heap) (v : val) (p : path) : bool :=
  match p with
  | [] => true
  | s :: rest =>
      match v with
      | VRef l =>
          match h !! l with
          | Some o => match own (key s) o with Some x => own_pathb h x rest | None => false end
          | None => false
          end
      | _ => false
      end
  end.

Definition seg_is_num (s : option seg) : bool :=
  match s with Some (SNum _) => true | _ => false end.

Section Chains.

Variable inh : pkind -> string -> val.

(** A key with no special meaning: not [length] nor [__proto__], and no
    prototype member of that name. *)
Definition plain_key (k : string) : Prop :=
  k <> "length" /\ k <> "__proto__" /\
  forall pk, match pk with PHost _ => True | _ => inh pk k = VUndef end.

Definition plain_path (p : path) : Prop := Forall (fun s => plain_key (key s)) p.

(** Along the loop of [setValueAtPath] from [cur], every container read
    before the last segment is missing or an object or array. *)
Fixpoint chain_ok (h : heap) (cur : val) (p : path) : Prop :=
  match p with
  | [] | [_] => True
  | s :: rest =>
      match get_prop inh h cur (key s) with
      | Ok VUndef => True
      | Ok (VRef l) => chain_ok h (VRef l) rest
      | _ => False
      end
  end.

(** The existing containers the loop writes to or goes through. *)
Fixpoint chain_locs (h : heap) (cur : val) (p : path) : list loc :=
  match cur with
  | VRef l =>
      l :: match p with
           | [] | [_] => []
           | s :: rest =>
               match get_prop inh h cur (key s) with
               | Ok x => chain_locs h x rest
               | _ => []
               end
           end
  | _ => []
  end.

Definition plain_keyb (k : string) : bool :=
  negb (String.eqb k "length") && negb (String.eqb k "__proto__") &&
  forallb (fun pk => is_undef (inh pk k)) [PObject; PArray; PString; PNumber; PBoolean].

Definition prefixes_okb (h : heap) (d : val) (p : path) : bool :=
  forallb (fun i => match walk inh h d (take i p) with
                    | Ok VUndef | Ok (VRef _) => true
                    | _ => false
                    end) (seq 1 (length p - 1)).

(** Every proper prefix of [p] resolves to nothing or to a container. *)
Definition prefixes_ok (h : heap) (d : val) (p : path) : Prop :=
  forall q r, p = (q ++ r)%list -> q <> [] -> r <> [] ->
    walk inh h d q = Ok VUndef \/ exists l, walk inh h d q = Ok (VRef l).

End Chains.

(** Inputs of the concrete runs. *)
Definition row42 : row := {| rkey := None; rvalue := RNum 42; rtype := "number" |}.
Definition row_str : row := {| rkey := None; rvalue := RStr "a"; rtype := "string" |}.
Definition row_b1 : row := {| rkey := Some "b"; rvalue := RNum 1; rtype := "number" |}.
Definition row_12 : row := {| rkey := Some "1"; rvalue := RNum 2; rtype := "number" |}.
Definition row_a1 : row := {| rkey := Some "a"; rvalue := RNum 1; rtype := "number" |}.
Definition row_barr : row := {| rkey := Some "b"; rvalue := RNull; rtype := "array" |}.
Definition row_proto1 : row := {| rkey := Some "__proto__"; rvalue := RNum 1; rtype := "number" |}.
Definition row_a2 : row := {| rkey := Some "a"; rvalue := RNum 2; rtype := "number" |}.

Definition doc_ab : jtree := JObj [("a", JObj [("b", JNum 1)])].

(** [JSON.parse('{"a":[1,{"b":true}],"c":null}')] on an empty heap. *)
Definition doc_nested_tree : jtree :=
  JObj [("a", JArr [JNum 1; JObj [("b", JBool true)]] []); ("c", JNull)].
Definition doc_nested_heap : heap := fst (alloc_tree [] doc_nested_tree).
Definition doc_nested : val := snd (alloc_tree [] doc_nested_tree).

(** A [JSON.parse] for the runs below: ["{}"] parses, other texts do not. *)
Definition demo_parse (s : string) : string + jtree :=
  if String.eqb s "{}" then inr (JObj []) else inl "Unexpected token i in JSON at position 1".

Definition demo_world (ed : bool) (buffer : option string) : world :=
  {| editing := ed; editValue := buffer; error := None; json_text := "{}";
     file_contents := "{}"; log := [] |}.

Definition demo_node : gnode := {| npath := Some [SStr "a"]; ntext := [row_a1] |}.

(* ================================================================== *)
(** * Proofs *)

Lemma str_app_nil (b : string) : "" ++ b = b.
Proof. reflexivity. Qed.

Lemma str_app_cons (x : ascii) (a b : string) : String x a ++ b = String x (a ++ b).
Proof. reflexivity. Qed.

Lemma str_app_assoc (a b c : string) : (a ++ b) ++ c = a ++ (b ++ c).
Proof.
  induction a as [|x a IH]; [done|]. by rewrite !str_app_cons, IH.
Qed.

Lemma join_brackets (x : string) (xs : list string) :
  "[" ++ join "][" (x :: xs) ++ "]" =
  fold_right String.append "" (map (fun t => "[" ++ t ++ "]") (x :: xs)).
Proof.
  revert x. induction xs as [|y xs IH]; intros x.
  - simpl. rewrite !str_app_assoc. reflexivity.
  - change (join "][" (x :: y :: xs)) with (x ++ "][" ++ join "][" (y :: xs)).
    change (fold_right String.append "" (map (fun t => "[" ++ t ++ "]") (x :: y :: xs)))
      with (("[" ++ x ++ "]") ++ fold_right String.append "" (map (fun t => "[" ++ t ++ "]") (y :: xs))).
    rewrite <- IH. rewrite !str_app_assoc. reflexivity.
Qed.

(** C9: [jsonPathToString] is the total function that renders the absent or
    empty path as [$] and otherwise appends [[n]] for a number segment and
    [["key"]] for a string segment (the key is not escaped) after [$]; the
    three examples of the specification hold. *)
Theorem jsonPathToString_format :
  jsonPathToString None = "$" /\
  (forall p, jsonPathToString (Some p) = format_spec p) /\
  jsonPathToString (Some []) = "$" /\
  jsonPathToString (Some [SStr "a"; SStr "b"]) = "$[" ++ dq ++ "a" ++ dq ++ "][" ++ dq ++ "b" ++ dq ++ "]" /\
  jsonPathToString (Some [SStr "items"; SNum 2]) = "$[" ++ dq ++ "items" ++ dq ++ "][2]".
Proof.
  split; [done|]. split; [|split; [done|split; reflexivity]].
  intros [|s p]; [done|]. unfold jsonPathToString, format_spec.
  transitivity ("$" ++ ("[" ++ join "][" (map seg_text (s :: p)) ++ "]")); [reflexivity|].
  rewrite (map_cons seg_text s p), join_brackets.
  f_equal. rewrite <- (map_map seg_text (fun t => "[" ++ t ++ "]")). reflexivity.
Qed.

Lemma row_step_blank (o : nobj) (r : row) :
  row_step o (blank_to_none r) = row_step o r.
Proof.
  destruct r as [[k|] v t]; unfold blank_to_none; simpl; [|done].
  destruct (String.eqb_spec k ""); [subst|reflexivity].
  unfold row_step; simpl. destruct (_ && _); reflexivity.
Qed.

Lemma key_truthy_blank (r : row) : key_truthy (rkey (blank_to_none r)) = key_truthy (rkey r).
Proof.
  destruct r as [[k|] v t]; unfold blank_to_none; simpl; [|done].
  destruct (String.eqb k "") eqn:E; simpl.
  - apply String.eqb_eq in E. subst. reflexivity.
  - by rewrite E.
Qed.

Lemma fold_row_step_blank (rows : list row) (o : nobj) :
  fold_left row_step (map blank_to_none rows) o = fold_left row_step rows o.
Proof.
  revert o. induction rows as [|r rows IH]; intros o; [done|].
  simpl. by rewrite row_step_blank, IH.
Qed.

Lemma fold_row_step_skip_empty (rows : list row) (o : nobj) :
  fold_left row_step rows o =
  fold_left row_step (List.filter (fun r => negb (bool_decide (rkey r = Some ""))) rows) o.
Proof.
  revert o. induction rows as [|r rows IH]; intros o; [done|].
  simpl. case_bool_decide as Hk; simpl.
  - rewrite <- IH. f_equal. unfold row_step. rewrite Hk. simpl. by destruct (_ && _).
  - by rewrite IH.
Qed.

(** C10: [normalizeNodeData] treats a row whose key is [""] as a row with no
    key: a single such row is rendered through the bare-scalar branch, rows
    with key [""] contribute nothing to the object, and replacing every
    [""] key by an absent key never changes the result. *)
Theorem normalize_empty_key_as_absent :
  (forall v t, normalizeNodeData (Some [{| rkey := Some ""; rvalue := v; rtype := t |}]) = template v) /\
  (forall rows, rows_object rows =
                rows_object (List.filter (fun r => negb (bool_decide (rkey r = Some ""))) rows)) /\
  (forall rows, normalizeNodeData (Some rows) = normalizeNodeData (Some (map blank_to_none rows))).
Proof.
  split; [done|]. split.
  - intros rows. unfold rows_object. f_equal. apply fold_row_step_skip_empty.
  - intros [|r [|r2 rows]]; [done| |].
    + simpl map. unfold normalizeNodeData. rewrite key_truthy_blank.
      destruct (key_truthy (rkey r)); simpl; [|by destruct r as [[k|] v t]; unfold blank_to_none; simpl;
        try destruct (String.eqb k "")].
      unfold rows_object. by rewrite <- (fold_row_step_blank [r]).
    + unfold normalizeNodeData, rows_object.
      by rewrite <- (fold_row_step_blank (r :: r2 :: rows)).
Qed.

Lemma row_step_keeps (o : nobj) (r : row) :
  row_step o r = if keeps r then assign_amended o r else o.
Proof.
  unfold row_step, keeps.
  destruct (negb (rtype r =? "array") && negb (rtype r =? "object")); [|reflexivity].
  cbn [andb]. destruct (rkey r) as [k|] eqn:Hkr; [|reflexivity].
  destruct (key_truthy (Some k)); [|reflexivity].
  destruct o as [o b]. unfold assign_amended, assign_key. rewrite Hkr. simpl. unfold id.
  destruct (b && (k =? "__proto__")); [|reflexivity]. by destruct (rvalue r).
Qed.

Lemma fold_row_step_keeps (rows : list row) (o : nobj) :
  fold_left row_step rows o = fold_left assign_amended (List.filter keeps rows) o.
Proof.
  revert o. induction rows as [|r rows IH]; intros o; [done|].
  simpl. rewrite row_step_keeps. by destruct (keeps r).
Qed.


(** C8 fails as stated: a single keyless string row is rendered without the
    quotes of JSON text, and a key that is an array index comes before the
    keys of earlier rows. *)
Lemma normalize_claim_counterexample :
  normalizeNodeData (Some [row_str]) = "a" /\
  normalize_claim [row_str] = dq ++ "a" ++ dq /\
  normalizeNodeData (Some [row_b1; row_12]) <> normalize_claim [row_b1; row_12].
Proof. split; [reflexivity|]. split; [reflexivity|]. vm_compute. discriminate. Qed.

(** C8 (amended): [normalizeNodeData] yields ["{}"] for no rows; for a single
    row whose key is absent or empty, the template-literal rendering
    [String(value)] of its value (42 gives ["42"], a string appears without
    quotes); otherwise [JSON.stringify(obj, null, 2)] of the object built by
    assigning [obj[key] = value], in row order, for every row that is not an
    ["array"] or ["object"] placeholder and has a non-empty key (a repeated
    key keeps its first place and its last value; array-index keys come
    first in ascending order, as in every JavaScript object; the key
    ["__proto__"], while the object still has its prototype, calls the
    prototype setter instead: [null] removes the prototype, after which
    ["__proto__"] is an ordinary key, and any other value is ignored). *)
Theorem normalizeNodeData_amended :
  normalizeNodeData None = "{}" /\
  (forall rows, normalizeNodeData (Some rows) = normalize_amended rows) /\
  normalizeNodeData (Some [row42]) = "42" /\
  normalizeNodeData (Some [row_a1; row_barr]) = "{" ++ nl ++ "  " ++ dq ++ "a" ++ dq ++ ": 1" ++ nl ++ "}" /\
  normalizeNodeData (Some [row_proto1; row_a2]) = "{" ++ nl ++ "  " ++ dq ++ "a" ++ dq ++ ": 2" ++ nl ++ "}".
Proof.
  split; [done|]. split; [|split_and!; reflexivity].
  intros [|r [|r2 rows]]; [done| |].
  - unfold normalizeNodeData, normalize_amended, rows_object, assigned_object.
    destruct (key_truthy (rkey r)); [|reflexivity]. cbn [negb].
    f_equal. f_equal. apply (fold_row_step_keeps [r]).
  - unfold normalizeNodeData, normalize_amended, rows_object, assigned_object.
    by rewrite fold_row_step_keeps.
Qed.

(* ------------------------------------------------------------------ *)
(** ** Concrete runs *)

Lemma js_inherited_noref (k : pkind) (p : string) (l : loc) : js_inherited k p <> VRef l.
Proof. unfold js_inherited. by destruct (existsb _ _). Qed.


(** C1 fails: [setValueAtPath] copies only the outermost object; the
    object under ["a"] is shared with the input and is assigned in place, so
    the caller's document [{"a":{"b":1}}] reads [{"a":{"b":2}}] after
    writing [2] at [["a","b"]]. *)
Theorem setValueAtPath_mutates_nested_input :
  let '(h, d) := alloc_tree [] doc_ab in
  snap 3 h d = Some doc_ab /\
  match setValueAtPath js_inherited h d (Some [SStr "a"; SStr "b"]) (VNum 2) with
  | Ok (h', r) => snap 3 h' d = Some (JObj [("a", JObj [("b", JNum 2)])]) /\
                  snap 3 h' r = Some (JObj [("a", JObj [("b", JNum 2)])])
  | _ => False
  end.
Proof. vm_compute. split; [reflexivity|split; reflexivity]. Qed.




(** C7 fails: with the live document [{}] and a node at path [["a"]],
    [getValueAtPath] returns [undefined] without throwing, so the effect and
    the Edit button store [JSON.stringify(undefined)] (that is, [undefined])
    in the edit buffer and never reach the [catch] that falls back to
    [normalizeNodeData] over the rows. *)
Theorem resolution_miss_skips_fallback :
  on_node_change js_inherited demo_parse (demo_world false None) (Some demo_node)
    = Ok (set_ui (demo_world false None) false None None) /\
  start_edit js_inherited demo_parse (demo_world false None) (Some demo_node)
    = Ok (set_ui (demo_world false None) true None None) /\
  normalizeNodeData (Some (ntext demo_node)) = "{" ++ nl ++ "  " ++ dq ++ "a" ++ dq ++ ": 1" ++ nl ++ "}" /\
  view_text (Some demo_node) = normalizeNodeData (Some (ntext demo_node)).
Proof. split; [reflexivity|]. split; [reflexivity|]. split; reflexivity. Qed.

(** C6 (counterexample): a segment of the other kind is not always absent: the
    number segment [0] reads the key ["0"] of an object, and the string
    segment ["length"] reads the length of an array. *)
Lemma getValueAtPath_kind_mismatch_counterexample :
  (let '(h, d) := alloc_tree [] (JObj [("0", JStr "x")]) in
   getValueAtPath js_inherited h d (Some [SNum 0]) = Ok (VStr "x")) /\
  (let '(h, d) := alloc_tree [] (JArr [JNum 7] []) in
   getValueAtPath js_inherited h d (Some [SStr "length"]) = Ok (VNum 1)).
Proof. split; reflexivity. Qed.

(* ------------------------------------------------------------------ *)
(** ** Saving *)

(** C2 (counterexample): writing [2] at [["a","b"]] into [{"a":1}] reads
    [1] at [["a"]] and then assigns a property of the number [1], which
    throws in strict code, so there is no written document to resolve. *)
Lemma write_read_primitive_container_counterexample :
  let '(h, d) := alloc_tree [] (JObj [("a", JNum 1)]) in
  getValueAtPath js_inherited h d (Some [SStr "a"]) = Ok (VNum 1) /\
  setValueAtPath js_inherited h d (Some [SStr "a"; SStr "b"]) (VNum 2)
    = Throw "Cannot create property on primitive".
Proof. split; reflexivity. Qed.

(** C3 (counterexample): in [{"a":"xy"}] the path [["a",0]] resolves to
    ["x"], but writing ["x"] back throws; and for the document ["ab"] the
    path [[0]] resolves to ["a"], while writing it back returns the object
    [{"0":"a","1":"b"}]. *)
Lemma write_back_resolved_counterexample :
  (let '(h, d) := alloc_tree [] (JObj [("a", JStr "xy")]) in
   getValueAtPath js_inherited h d (Some [SStr "a"; SNum 0]) = Ok (VStr "x") /\
   setValueAtPath js_inherited h d (Some [SStr "a"; SNum 0]) (VStr "x")
     = Throw "Cannot create property on primitive") /\
  getValueAtPath js_inherited [] (VStr "ab") (Some [SNum 0]) = Ok (VStr "a") /\
  (exists h' r, setValueAtPath js_inherited [] (VStr "ab") (Some [SNum 0]) (VStr "a") = Ok (h', r) /\
     snap 1 h' r = Some (JObj [("0", JStr "a"); ("1", JStr "b")])).
Proof.
  split; [split; reflexivity|split; [reflexivity|]].
  eexists _, _. split; [reflexivity|]. reflexivity.
Qed.

Section Save.

Variable inh : pkind -> string -> val.
Variable json_parse : string -> string + jtree.
Variable graph_nodes : string -> list gnode.

(** C4: when the edit buffer or the live document does not parse,
    [handleSave] keeps the session in Editing, shows the parser's message,
    and calls no store: the file contents, the live document and the list of
    store calls are unchanged. *)
Theorem handleSave_parse_failure (w : world) (nodeData : option gnode) (msg : string) :
  editing w = true ->
  (json_parse (buffer_text (editValue w)) = inl msg \/
   (exists t, json_parse (buffer_text (editValue w)) = inr t /\ json_parse (json_text w) = inl msg)) ->
  exists w', handleSave inh json_parse graph_nodes w nodeData = Ok w' /\
    editing w' = true /\ error w' = Some msg /\ editValue w' = editValue w /\
    json_text w' = json_text w /\ file_contents w' = file_contents w /\ log w' = log w.
Proof.
  intros Hed [Hp | [t [Hp Hw]]]; unfold handleSave; rewrite Hp.
  - eexists. split; [reflexivity|]. simpl. repeat split; auto.
  - destruct (alloc_tree [] t) as [h1 v]. rewrite Hw.
    eexists. split; [reflexivity|]. simpl. repeat split; auto.
Qed.

End Save.

Lemma handleSave_parse_failure_witness :
  exists w', handleSave js_inherited demo_parse (fun _ => []) (demo_world true (Some "{invalid"))
               (Some demo_node) = Ok w' /\
    editing w' = true /\ error w' = Some "Unexpected token i in JSON at position 1" /\
    editValue w' = Some "{invalid" /\ json_text w' = "{}" /\ file_contents w' = "{}" /\ log w' = [].
Proof.
  apply (handleSave_parse_failure js_inherited demo_parse (fun _ => [])
           (demo_world true (Some "{invalid")) (Some demo_node)
           "Unexpected token i in JSON at position 1").
  - reflexivity.
  - left. reflexivity.
Defined.

(* ------------------------------------------------------------------ *)
(** ** Resolving a path *)

Section Resolve.

Variable inh : pkind -> string -> val.

Lemma get_prop_no_throw (h : heap) (v : val) (k : string) (msg : string) :
  nullish v = false -> get_prop inh h v k <> Throw msg.
Proof. intros Hn. destruct v; simpl in *; try discriminate; repeat case_match; discriminate. Qed.

Lemma walk_no_throw (h : heap) (p : path) : forall (v : val) (msg : string),
  walk inh h v p <> Throw msg.
Proof.
  induction p as [|s p IH]; intros v msg; simpl; [discriminate|].
  destruct (nullish v) eqn:Hn; [discriminate|].
  unfold mbind, res_bind.
  destruct (get_prop inh h v (key s)) eqn:Hg; [apply IH| |discriminate].
  exfalso. by apply (get_prop_no_throw h v (key s) msg0).
Qed.

Lemma walk_nullish (h : heap) (p : path) (v : val) :
  nullish v = true -> walk inh h v p = Ok (if bool_decide (p = []) then v else VUndef).
Proof. intros Hn. destruct p as [|s p]; simpl; [done|]. by rewrite Hn. Qed.

Lemma walk_app (h : heap) (q r : path) : forall (v w : val),
  walk inh h v q = Ok w -> walk inh h v (q ++ r)%list = walk inh h w r.
Proof.
  induction q as [|s q IH]; intros v w Hq; simpl in *; [by injection Hq as ->|].
  destruct (nullish v) eqn:Hn.
  - injection Hq as <-. destruct r as [|s' r]; simpl; [done|]. reflexivity.
  - unfold mbind, res_bind in *.
    destruct (get_prop inh h v (key s)); try discriminate. by apply IH.
Qed.

Lemma getValueAtPath_some (h : heap) (d : val) (q : path) (s : seg) (rest : path) :
  getValueAtPath inh h d (Some (q ++ s :: rest)%list) = walk inh h d (q ++ s :: rest)%list.
Proof. by destruct q. Qed.

End Resolve.

(* ------------------------------------------------------------------ *)
(** ** Keys, own properties and property writes *)

Lemma uint_of_string_of_uint (u : Decimal.uint) : uint_of_string (string_of_uint u) = Some u.
Proof. induction u; simpl; try rewrite IHu; reflexivity. Qed.

Lemma string_of_N_nonempty (n : N) : string_of_N n <> "".
Proof.
  unfold string_of_N. intros E.
  destruct (N.to_uint n) eqn:Hu; try discriminate.
  pose proof (DecimalN.Unsigned.of_to n) as H. rewrite Hu in H.
  rewrite <- H in Hu. vm_compute in Hu. discriminate.
Qed.

Lemma canonical_index_string_of_N (n : N) : canonical_index (string_of_N n) = Some n.
Proof.
  assert (Hd : N_of_digits (string_of_N n) = Some n).
  { pose proof (string_of_N_nonempty n) as Hne. unfold N_of_digits.
    destruct (string_of_N n) eqn:E; [done|]. rewrite <- E. unfold string_of_N.
    rewrite uint_of_string_of_uint. simpl. by rewrite DecimalN.Unsigned.of_to. }
  unfold canonical_index. rewrite Hd. by rewrite String.eqb_refl.
Qed.

Lemma canonical_index_spec (k : string) (n : N) : canonical_index k = Some n -> string_of_N n = k.
Proof.
  unfold canonical_index. destruct (N_of_digits k) as [m|]; [|discriminate].
  destruct (String.eqb_spec (string_of_N m) k); intros H; [congruence|discriminate].
Qed.

Lemma array_index_spec (k : string) (n : N) : array_index k = Some n -> string_of_N n = k.
Proof.
  unfold array_index. destruct (canonical_index k) eqn:E; [|discriminate].
  destruct (N.ltb _ _); intros H; [injection H as <-; by apply canonical_index_spec|discriminate].
Qed.

Section Props.

Context {A : Type}.
Implicit Types (ps : list (string * A)) (v : A).

Lemma assoc_replace_prop k v ps : is_Some (assoc k ps) -> assoc k (replace_prop k v ps) = Some v.
Proof.
  induction ps as [|[k' v'] ps IH]; simpl; [by intros []|].
  destruct (String.eqb k k') eqn:E; simpl; rewrite E; auto.
Qed.

Lemma assoc_add_prop k v ps : assoc k ps = None -> assoc k (add_prop k v ps) = Some v.
Proof.
  induction ps as [|[k' v'] ps IH]; simpl; [by rewrite String.eqb_refl|].
  destruct (String.eqb k k') eqn:E; [discriminate|]. intros H.
  destruct (goes_before k k'); simpl; [by rewrite String.eqb_refl|rewrite E; auto].
Qed.

Lemma assoc_put_prop k v ps : assoc k (put_prop k v ps) = Some v.
Proof.
  unfold put_prop. destruct (assoc k ps) eqn:E.
  - apply assoc_replace_prop. by rewrite E.
  - by apply assoc_add_prop.
Qed.

Lemma put_prop_id k v ps : assoc k ps = Some v -> put_prop k v ps = ps.
Proof.
  intros H. unfold put_prop. rewrite H. clear -H.
  induction ps as [|[k' v'] ps IH]; simpl in *; [done|].
  destruct (String.eqb k k'); [congruence|by rewrite IH].
Qed.

Lemma in_put_prop k v ps (x : A) :
  x ∈ map snd (put_prop k v ps) -> x = v \/ x ∈ map snd ps.
Proof.
  unfold put_prop. destruct (assoc k ps); clear.
  - induction ps as [|[k' v'] ps IH]; simpl; [by intros Hx; inversion Hx|].
    destruct (String.eqb k k'); simpl; rewrite !elem_of_cons; [tauto|].
    intros [->|Hx]; [auto|]. destruct (IH Hx); auto.
  - induction ps as [|[k' v'] ps IH]; simpl.
    { rewrite elem_of_cons. intros [->|Hx]; [by left|inversion Hx]. }
    destruct (goes_before k k'); simpl; rewrite !elem_of_cons; [tauto|].
    intros [->|Hx]; [auto|]. destruct (IH Hx); auto.
Qed.

End Props.

Lemma put_elem_lookup (n : nat) (v : val) (es : list (option val)) :
  put_elem n v es !! n = Some (Some v).
Proof.
  unfold put_elem. destruct (Nat.ltb_spec n (length es)).
  - by apply list_lookup_insert_eq.
  - rewrite lookup_app_r by lia. rewrite lookup_app_r by (rewrite repeat_length; lia).
    rewrite repeat_length. by replace (n - length es - (n - length es)) with 0 by lia.
Qed.

Lemma put_elem_id (n : nat) (v : val) (es : list (option val)) :
  es !! n = Some (Some v) -> put_elem n v es = es.
Proof.
  intros H. unfold put_elem. pose proof (lookup_lt_Some _ _ _ H).
  destruct (Nat.ltb_spec n (length es)); [by apply list_insert_id|lia].
Qed.

Lemma in_put_elem (n : nat) (v x : val) (es : list (option val)) :
  x ∈ omap (fun e => e) (put_elem n v es) -> x = v \/ x ∈ omap (fun e => e) es.
Proof.
  unfold put_elem. rewrite !list_elem_of_omap.
  destruct (Nat.ltb_spec n (length es)).
  - intros [e [He ->]]. apply list_elem_of_lookup in He as [i Hi].
    apply list_lookup_insert_Some in Hi as [(_ & Heq & _)|(_ & Hi)]; [injection Heq; by left|].
    right. exists (Some x). split; [|done]. by eapply list_elem_of_lookup_2.
  - intros [e [He ->]]. rewrite !elem_of_app in He. destruct He as [He|[He|He]].
    + right. by exists (Some x).
    + apply list_elem_of_In, repeat_spec in He. discriminate.
    + apply list_elem_of_singleton in He. injection He as ->. by left.
Qed.

Lemma assoc_in {A} (k : string) (ps : list (string * A)) (x : A) :
  assoc k ps = Some x -> x ∈ map snd ps.
Proof.
  induction ps as [|[k' v'] ps IH]; simpl; [discriminate|].
  rewrite elem_of_cons. destruct (String.eqb k k'); [intros [= ->]; by left|auto].
Qed.

Lemma own_set_own (k : string) (v : val) (o : obj) : own k (set_own k v o) = Some v.
Proof.
  destruct o as [es nm|ps]; simpl; [|apply assoc_put_prop].
  destruct (array_index k) as [n|] eqn:E; simpl; rewrite E; [|apply assoc_put_prop].
  by rewrite put_elem_lookup.
Qed.

Lemma set_own_id (k : string) (v : val) (o : obj) : own k o = Some v -> set_own k v o = o.
Proof.
  destruct o as [es nm|ps]; simpl; [|intros H; by rewrite put_prop_id].
  destruct (array_index k) as [n|]; [|intros H; by rewrite put_prop_id].
  destruct (es !! N.to_nat n) as [[x|]|] eqn:L; intros H; try discriminate.
  injection H as ->. by rewrite put_elem_id.
Qed.

Lemma is_arr_set_own (k : string) (v : val) (o : obj) : is_arr (set_own k v o) = is_arr o.
Proof. destruct o; simpl; [destruct (array_index k)|]; reflexivity. Qed.

Lemma in_set_own (k : string) (v x : val) (o : obj) :
  x ∈ obj_vals (set_own k v o) -> x = v \/ x ∈ obj_vals o.
Proof.
  destruct o as [es nm|ps]; simpl; [|apply in_put_prop].
  destruct (array_index k) as [n|]; simpl; rewrite !elem_of_app.
  - intros [H|H]; [destruct (in_put_elem _ _ _ _ H); auto|auto].
  - intros [H|H]; [auto|destruct (in_put_prop _ _ _ _ H); auto].
Qed.

Lemma own_in_vals (k : string) (o : obj) (x : val) : own k o = Some x -> x ∈ obj_vals o.
Proof.
  destruct o as [es nm|ps]; simpl; [|apply assoc_in].
  rewrite elem_of_app. destruct (array_index k) as [n|]; [|intros H; right; by eapply assoc_in].
  destruct (es !! N.to_nat n) as [[y|]|] eqn:L; intros H; try discriminate.
  injection H as ->. left. apply list_elem_of_omap. exists (Some x).
  split; [by eapply list_elem_of_lookup_2|done].
Qed.

Lemma wf_val_app (h : heap) (o : obj) (v : val) : wf_val h v -> wf_val (h ++ [o])%list v.
Proof. destruct v; simpl; auto. rewrite length_app. simpl. lia. Qed.

Lemma wf_val_insert (h : heap) (l : loc) (o : obj) (v : val) :
  wf_val (<[l := o]> h) v <-> wf_val h v.
Proof. destruct v; cbn [wf_val]; try done. by rewrite length_insert. Qed.

Lemma wf_heap_app (h : heap) (o : obj) :
  wf_heap h -> (forall v, v ∈ obj_vals o -> wf_val h v) -> wf_heap (h ++ [o])%list.
Proof.
  intros Hh Ho l o' v Hl Hv. apply wf_val_app.
  apply lookup_app_Some in Hl as [Hl|[_ Hl]]; [by eapply Hh|].
  apply list_lookup_singleton_Some in Hl as [_ <-]. auto.
Qed.

Lemma wf_heap_insert (h : heap) (l : loc) (o : obj) :
  wf_heap h -> (forall v, v ∈ obj_vals o -> wf_val h v) -> wf_heap (<[l := o]> h).
Proof.
  intros Hh Ho l' o' v Hl Hv. apply wf_val_insert.
  apply list_lookup_insert_Some in Hl as [(_ & <- & _)|(_ & Hl)]; [auto|by eapply Hh].
Qed.

Lemma mapM_ext_in {A B} (f g : A -> option B) (l : list A) :
  (forall x, x ∈ l -> f x = g x) -> mapM f l = mapM g l.
Proof.
  induction l as [|x l IH]; intros H; simpl; [done|].
  rewrite (H x) by (rewrite elem_of_cons; auto).
  rewrite IH; [done|]. intros y Hy. apply H. rewrite elem_of_cons. auto.
Qed.

(** Adding an object to the heap changes no snapshot of a value of it. *)
Lemma snap_ext (h : heap) (o : obj) :
  wf_heap h -> forall f v, wf_val h v -> snap f (h ++ [o])%list v = snap f h v.
Proof.
  intros Hh f. induction f as [|f IH]; intros v Hv; destruct v; try reflexivity.
  simpl in Hv |- *. rewrite lookup_app_l by done.
  destruct (h !! l) as [[es nm|ps]|] eqn:Hl; [| |done].
  - rewrite (mapM_ext_in _ (fun e => match e with Some x => snap f h x | None => Some JUndef end)).
    2:{ intros [x|] He; [|done]. apply IH. eapply Hh; [done|]. simpl. rewrite elem_of_app.
        left. apply list_elem_of_omap. by exists (Some x). }
    rewrite (mapM_ext_in _ (fun '(k, x) => t ← snap f h x; Some (k, t)) nm); [done|].
    intros [k x] Hx. rewrite IH; [done|]. eapply Hh; [done|]. simpl. rewrite elem_of_app.
    right. apply list_elem_of_fmap. by exists (k, x).
  - rewrite (mapM_ext_in _ (fun '(k, x) => t ← snap f h x; Some (k, t)) ps); [done|].
    intros [k x] Hx. rewrite IH; [done|]. eapply Hh; [done|]. simpl.
    apply list_elem_of_fmap. by exists (k, x).
Qed.

(* ------------------------------------------------------------------ *)
(** ** Reads and writes on a well-formed heap *)

Section Access.

Variable inh : pkind -> string -> val.
Hypothesis inh_noref : forall k p l, inh k p <> VRef l.

Lemma obj_get_own (o : obj) (k : string) (x : val) : own k o = Some x -> obj_get inh o k = x.
Proof. unfold obj_get. by intros ->. Qed.

Lemma obj_get_ref (o : obj) (k : string) (l : loc) : obj_get inh o k = VRef l -> VRef l ∈ obj_vals o.
Proof.
  unfold obj_get. destruct (own k o) eqn:E; [intros ->; by eapply own_in_vals|].
  destruct o; [destruct (String.eqb k "length"); [discriminate|]|];
    intros H; by apply inh_noref in H.
Qed.

Lemma get_prop_ref (h : heap) (v : val) (k : string) (l : loc) :
  get_prop inh h v k = Ok (VRef l) ->
  exists c o, v = VRef c /\ h !! c = Some o /\ VRef l ∈ obj_vals o.
Proof.
  destruct v as [| | | | |c|]; simpl; try discriminate.
  4: { destruct (h !! c) as [o|] eqn:Hc; [intros [= Hx]|discriminate].
       exists c, o. split_and!; [done|done|]. by apply (obj_get_ref o k). }
  all: repeat case_match; intros [= Hx]; try discriminate; by apply inh_noref in Hx.
Qed.

Lemma get_prop_wf (h : heap) (v : val) (k : string) (x : val) :
  wf_heap h -> get_prop inh h v k = Ok x -> wf_val h x.
Proof.
  intros Hh Hg. destruct x as [| | | | |l|]; simpl; try done.
  apply get_prop_ref in Hg as (c & o & -> & Hc & Hin). exact (Hh c o (VRef l) Hc Hin).
Qed.

Lemma get_prop_ext (h : heap) (o : obj) (v : val) (k : string) :
  wf_val h v -> get_prop inh (h ++ [o])%list v k = get_prop inh h v k.
Proof. destruct v; simpl; try done. intros Hl. by rewrite lookup_app_l. Qed.

Lemma walk_ext (h : heap) (o : obj) :
  wf_heap h -> forall p v, wf_val h v -> walk inh (h ++ [o])%list v p = walk inh h v p.
Proof.
  intros Hh p. induction p as [|s p IH]; intros v Hv; simpl; [done|].
  destruct (nullish v); [done|]. rewrite get_prop_ext by done.
  unfold mbind, res_bind. destruct (get_prop inh h v (key s)) eqn:Hg; try done.
  apply IH. by eapply get_prop_wf.
Qed.

Lemma get_prop_obj (h : heap) (l : loc) (o : obj) (k : string) :
  h !! l = Some o -> get_prop inh h (VRef l) k = Ok (obj_get inh o k).
Proof. intros Hl. simpl. by rewrite Hl. Qed.

Lemma set_loop_cons2 (h : heap) (cur : val) (s s2 : seg) (p : path) (v : val) :
  set_loop inh h cur (s :: s2 :: p) v =
  (x ← get_prop inh h cur (key s);
   h' ← (if is_undef x then let '(h1, f) := alloc h (empty_for s2) in
                            set_prop h1 cur (key s) (VRef f) else Ok h);
   cur' ← get_prop inh h' cur (key s); set_loop inh h' cur' (s2 :: p) v).
Proof. reflexivity. Qed.

(** A plain key on a fresh empty container reads nothing. *)
Lemma obj_get_empty (s nxt : seg) : plain_key inh (key s) -> obj_get inh (empty_for nxt) (key s) = VUndef.
Proof.
  intros (Hlen & _ & Hinh). unfold obj_get.
  destruct nxt as [m|t]; simpl.
  - destruct (array_index (key s)) as [n|]; simpl.
    + rewrite (proj2 (String.eqb_neq _ _) Hlen). exact (Hinh PArray).
    + rewrite (proj2 (String.eqb_neq _ _) Hlen). exact (Hinh PArray).
  - exact (Hinh PObject).
Qed.

(** Writing a plain key into an object or array of the heap. *)
Lemma set_prop_plain (h : heap) (l : loc) (o : obj) (k : string) (x : val) :
  plain_key inh k -> h !! l = Some o ->
  set_prop h (VRef l) k x = Ok (<[l := set_own k x o]> h).
Proof.
  intros (Hlen & Hproto & _) Hl. simpl. rewrite Hl.
  rewrite (proj2 (String.eqb_neq _ _) Hlen), andb_false_r.
  by rewrite (proj2 (String.eqb_neq _ _) Hproto).
Qed.

End Access.

(* ------------------------------------------------------------------ *)
(** ** Writing back a resolved value *)

Section WriteBack.

Variable inh : pkind -> string -> val.
Hypothesis inh_noref : forall k p l, inh k p <> VRef l.

Lemma lookup_alloc (h : heap) (o : obj) : (h ++ [o])%list !! length h = Some o.
Proof. apply list_lookup_middle. done. Qed.

Lemma own_path_ext (h : heap) (o : obj) :
  wf_heap h -> forall p v, wf_val h v -> own_path h v p -> own_path (h ++ [o])%list v p.
Proof.
  intros Hh p. induction p as [|s p IH]; intros v Hv Hp; simpl in *; [done|].
  destruct v as [| | | | |l|]; try done.
  destruct Hp as (o' & x & Hl & Ho & Hp). exists o', x. split_and!.
  - by apply lookup_app_l_Some.
  - done.
  - apply IH; [|done]. eapply Hh; [done|]. by eapply own_in_vals.
Qed.

(** Assigning to an own property of a [JSON.parse] container the value it
    has leaves the heap as it is. *)
Lemma set_prop_own (h : heap) (l : loc) (o : obj) (k : string) (x : val) :
  json_heap h -> h !! l = Some o -> own k o = Some x -> set_prop h (VRef l) k x = Ok h.
Proof.
  intros Hj Hl Ho. simpl. rewrite Hl.
  assert (Hlen : is_arr o && String.eqb k "length" = false).
  { destruct o as [es nm|ps]; [|done]. destruct (Hj l es nm Hl) as [-> _].
    destruct (String.eqb_spec k "length") as [->|]; [|by rewrite andb_false_r].
    discriminate Ho. }
  rewrite Hlen. assert (Hs : bool_decide (is_Some (own k o)) = true).
  { apply bool_decide_eq_true. by exists x. }
  rewrite Hs, andb_false_r. by rewrite set_own_id, list_insert_id.
Qed.

Lemma set_loop_own (h : heap) :
  json_heap h -> forall p l v, own_path h (VRef l) p -> walk inh h (VRef l) p = Ok v ->
  set_loop inh h (VRef l) p v = Ok h.
Proof.
  intros Hj p. induction p as [|s p IH]; intros l v Hp Hw; [done|].
  destruct Hp as (o & x & Hl & Ho & Hp).
  simpl in Hw. rewrite Hl in Hw. unfold mbind, res_bind in Hw. rewrite (obj_get_own _ o _ x Ho) in Hw.
  destruct p as [|s2 p].
  - simpl in Hw. injection Hw as <-. simpl. by eapply set_prop_own.
  - destruct x as [| | | | |d|]; try done.
    rewrite set_loop_cons2.
    rewrite (get_prop_obj _ _ _ _ _ Hl), (obj_get_own _ o _ _ Ho). unfold mbind, res_bind. cbn [is_undef].
    rewrite (get_prop_obj _ _ _ _ _ Hl), (obj_get_own _ o _ _ Ho). by apply IH.
Qed.

Lemma imap_dense (g : nat -> option val -> option val) (es : list (option val)) :
  Forall (fun e => is_Some e) es -> (forall i x, g i (Some x) = Some x) -> imap g es = es.
Proof.
  intros Hd Hg. apply list_eq. intros i. rewrite list_lookup_imap.
  destruct (es !! i) as [e|] eqn:E; simpl; [|done].
  rewrite Forall_lookup in Hd. destruct (Hd i e E) as [x ->]. by rewrite Hg.
Qed.

(** [[...a]] and [{...o}] of a [JSON.parse] container are equal to it. *)
Lemma clone_json (h : heap) (l : loc) (o : obj) :
  json_heap h -> h !! l = Some o -> clone_of inh h (VRef l) = Ok o.
Proof.
  intros Hj Hl. unfold clone_of, is_array_val, obj_spread. rewrite Hl.
  destruct o as [es nm|ps]; [|done].
  destruct (Hj l es nm Hl) as [-> Hd]. unfold arr_spread.
  rewrite imap_dense; [done|done|]. by intros i x.
Qed.

Lemma json_heap_dup (h : heap) (l : loc) (o : obj) :
  json_heap h -> h !! l = Some o -> json_heap (h ++ [o])%list.
Proof.
  intros Hj Hl l' es nm Hl'. apply lookup_app_Some in Hl' as [Hl'|[_ Hl']]; [by eapply Hj|].
  apply list_lookup_singleton_Some in Hl' as [_ ->]. by eapply Hj.
Qed.

Lemma wf_heap_dup (h : heap) (l : loc) (o : obj) :
  wf_heap h -> h !! l = Some o -> wf_heap (h ++ [o])%list.
Proof. intros Hh Hl. apply wf_heap_app; [done|]. intros v Hv. by eapply Hh. Qed.

Lemma snap_same_obj (h : heap) (a b : loc) (f : nat) :
  h !! a = h !! b -> snap f h (VRef a) = snap f h (VRef b).
Proof. intros E. destruct f; simpl; [done|]. by rewrite E. Qed.

Lemma walk_same_obj (h : heap) (a b : loc) (s : seg) (p : path) :
  h !! a = h !! b -> walk inh h (VRef a) (s :: p) = walk inh h (VRef b) (s :: p).
Proof. intros E. simpl. by rewrite E. Qed.

Lemma own_path_same_obj (h : heap) (a b : loc) (s : seg) (p : path) :
  h !! a = h !! b -> own_path h (VRef b) (s :: p) -> own_path h (VRef a) (s :: p).
Proof. intros E. simpl. by rewrite E. Qed.

(** C3 (amended): for a document as [JSON.parse] returns it (no holes, no
    named array properties) and a path each of whose segments names an own
    property of the value reached, writing the resolved value back at the
    same path returns a document deep-equal to the input, and leaves the
    input itself deep-equal to what it was. *)
Theorem write_back_identity (h : heap) (d : val) (p : path) (v : val) :
  wf_heap h -> json_heap h -> doc_val h d -> own_path h d p ->
  getValueAtPath inh h d (Some p) = Ok v ->
  exists h' r, setValueAtPath inh h d (Some p) v = Ok (h', r) /\
    (forall f, snap f h' r = snap f h d) /\ (forall f, snap f h' d = snap f h d).
Proof.
  intros Hh Hj Hd Hp Hv. destruct p as [|s p].
  - injection Hv as <-. exists h, d. split; [done|]. by split.
  - destruct d as [| | | | |l|]; try done. simpl in Hd.
    pose proof Hp as (o & x & Hl & _).
    assert (Hla : (h ++ [o])%list !! length h = (h ++ [o])%list !! l).
    { rewrite lookup_alloc. symmetry. by apply lookup_app_l_Some. }
    exists (h ++ [o])%list, (VRef (length h)). split; [|split].
    + unfold setValueAtPath. rewrite (clone_json h l o Hj Hl).
      unfold mbind, res_bind, alloc. cbv beta iota.
      rewrite (set_loop_own (h ++ [o])%list (json_heap_dup h l o Hj Hl) (s :: p) (length h) v).
      * reflexivity.
      * apply (own_path_same_obj _ _ _ _ _ Hla). apply own_path_ext; done.
      * rewrite (walk_same_obj _ _ _ _ _ Hla). rewrite walk_ext; done.
    + intros f. rewrite (snap_same_obj _ _ _ f Hla). by apply snap_ext.
    + intros f. by apply snap_ext.
Qed.

End WriteBack.

(* ------------------------------------------------------------------ *)
(** ** The decision procedures are sound *)

Lemma json_heapb_sound (h : heap) : json_heapb h = true -> json_heap h.
Proof.
  intros Hb l es nm Hl. unfold json_heapb in Hb. rewrite forallb_forall in Hb.
  assert (Hin : In (OArr es nm) h).
  { apply list_elem_of_In. by eapply list_elem_of_lookup_2. }
  specialize (Hb _ Hin).
  destruct nm; [|discriminate]. split; [done|].
  apply List.Forall_forall. intros e He. rewrite forallb_forall in Hb.
  specialize (Hb e He). destruct e; [by eexists|discriminate].
Qed.

Lemma refs_backward_below (h : heap) : forall i l o l',
  refs_backward i h = true -> h !! l = Some o -> VRef l' ∈ obj_vals o -> l' < i + l.
Proof.
  induction h as [|o0 h IH]; intros i l o l' Hb Hl Hin; [discriminate|].
  simpl in Hb. apply andb_prop in Hb as [Ho Hb]. destruct l as [|l]; simpl in Hl.
  - injection Hl as <-. rewrite forallb_forall in Ho.
    specialize (Ho (VRef l') (proj1 (list_elem_of_In _ _) Hin)).
    apply Nat.ltb_lt in Ho. lia.
  - specialize (IH (S i) l o l' Hb Hl Hin). lia.
Qed.

Lemma refs_backward_wf (h : heap) : refs_backward 0 h = true -> wf_heap h.
Proof.
  intros Hb l o [| | | | |l'|] Hl Hin; simpl; try done.
  pose proof (refs_backward_below h 0 l o l' Hb Hl Hin).
  pose proof (lookup_lt_Some _ _ _ Hl). lia.
Qed.

Lemma refs_backward_acyclic (h : heap) : refs_backward 0 h = true -> acyclic h.
Proof.
  intros Hb. assert (Hd : forall a b, clos_trans loc (points_to h) a b -> b < a).
  { intros a b Ht. induction Ht as [a b (o & Hl & Hin)|a b c _ IH1 _ IH2]; [|lia].
    pose proof (refs_backward_below h 0 a o b Hb Hl Hin). lia. }
  intros l Ht. specialize (Hd l l Ht). lia.
Qed.

Lemma own_pathb_sound (h : heap) (p : path) : forall v, own_pathb h v p = true -> own_path h v p.
Proof.
  induction p as [|s p IH]; intros v Hb; simpl in *; [done|].
  destruct v as [| | | | |l|]; try discriminate.
  destruct (h !! l) as [o|]; [|discriminate].
  destruct (own (key s) o) as [x|] eqn:Ho; [|discriminate].
  exists o, x. split_and!; auto.
Qed.

Section Decide.

Variable inh : pkind -> string -> val.

Lemma plain_keyb_sound (k : string) : plain_keyb inh k = true -> plain_key inh k.
Proof.
  unfold plain_keyb. intros Hb. apply andb_prop in Hb as [Hb Hi]. apply andb_prop in Hb as [Hl Hp].
  apply negb_true_iff, String.eqb_neq in Hl. apply negb_true_iff, String.eqb_neq in Hp.
  split_and!; [done|done|]. rewrite forallb_forall in Hi.
  assert (Hu : forall pk, In pk [PObject; PArray; PString; PNumber; PBoolean] -> inh pk k = VUndef).
  { intros pk Hpk. specialize (Hi pk Hpk). by destruct (inh pk k). }
  intros []; try done; apply Hu; simpl; tauto.
Qed.

Lemma plain_path_of_b (p : path) :
  forallb (fun s => plain_keyb inh (key s)) p = true -> plain_path inh p.
Proof.
  intros Hb. apply List.Forall_forall. intros s Hs. apply plain_keyb_sound.
  rewrite forallb_forall in Hb. by apply Hb.
Qed.

Lemma prefixes_okb_sound (h : heap) (d : val) (p : path) :
  prefixes_okb inh h d p = true -> prefixes_ok inh h d p.
Proof.
  unfold prefixes_okb. intros Hb q r -> Hq Hr. rewrite forallb_forall in Hb.
  assert (Hin : In (length q) (seq 1 (length (q ++ r) - 1))).
  { apply in_seq. destruct q; [done|]. destruct r; [done|]. rewrite length_app. simpl. lia. }
  specialize (Hb _ Hin).
  rewrite take_app_length in Hb.
  destruct (walk inh h d q) as [[| | | | |l|]| |]; try discriminate; eauto.
Qed.

End Decide.

Lemma write_back_identity_witness :
  exists h' r,
    setValueAtPath js_inherited doc_nested_heap doc_nested (Some [SStr "a"; SNum 1; SStr "b"])
      (VBool true) = Ok (h', r) /\
    (forall f, snap f h' r = snap f doc_nested_heap doc_nested) /\
    (forall f, snap f h' doc_nested = snap f doc_nested_heap doc_nested).
Proof.
  apply (write_back_identity js_inherited js_inherited_noref).
  - apply refs_backward_wf. vm_compute. reflexivity.
  - apply json_heapb_sound. vm_compute. reflexivity.
  - vm_compute. lia.
  - apply own_pathb_sound. vm_compute. reflexivity.
  - vm_compute. reflexivity.
Defined.

(* ------------------------------------------------------------------ *)
(** ** The containers the write loop goes through *)

Section Chain.

Variable inh : pkind -> string -> val.
Hypothesis inh_noref : forall k p l, inh k p <> VRef l.

Lemma walk_cons (h : heap) (v : val) (s : seg) (p : path) :
  walk inh h v (s :: p) = if nullish v then Ok VUndef else (x ← get_prop inh h v (key s); walk inh h x p).
Proof. reflexivity. Qed.

Lemma chain_ok_cons2 (h : heap) (v : val) (s s2 : seg) (p : path) :
  chain_ok inh h v (s :: s2 :: p) =
  match get_prop inh h v (key s) with
  | Ok VUndef => True
  | Ok (VRef l) => chain_ok inh h (VRef l) (s2 :: p)
  | _ => False
  end.
Proof. reflexivity. Qed.

Lemma chain_locs_cons2 (h : heap) (d : loc) (s s2 : seg) (p : path) :
  chain_locs inh h (VRef d) (s :: s2 :: p) =
  d :: match get_prop inh h (VRef d) (key s) with
       | Ok x => chain_locs inh h x (s2 :: p)
       | _ => []
       end.
Proof. reflexivity. Qed.

Lemma chain_locs_one (h : heap) (d : loc) (s : seg) : chain_locs inh h (VRef d) [s] = [d].
Proof. reflexivity. Qed.

Lemma chain_locs_undef (h : heap) (p : path) : chain_locs inh h VUndef p = [].
Proof. by destruct p. Qed.

(** Every container of the chain is reachable from its start. *)
Lemma chain_locs_reach (h : heap) (p : path) : forall d m,
  m ∈ chain_locs inh h (VRef d) p -> clos_refl_trans loc (points_to h) d m.
Proof.
  induction p as [|s p IH]; intros d m Hm.
  - apply list_elem_of_singleton in Hm. subst. apply rt_refl.
  - destruct p as [|s2 p].
    + rewrite chain_locs_one in Hm. apply list_elem_of_singleton in Hm. subst. apply rt_refl.
    + rewrite chain_locs_cons2, elem_of_cons in Hm. destruct Hm as [->|Hm]; [apply rt_refl|].
      destruct (get_prop inh h (VRef d) (key s)) as [x| |] eqn:Hg; try (by inversion Hm).
      destruct x as [| | | | |d'|]; try (by inversion Hm).
      apply get_prop_ref in Hg as (c & o & [= <-] & Hc & Hin); [|done].
      apply rt_trans with d'; [apply rt_step; by exists o|]. by apply IH.
Qed.

Lemma chain_locs_nodup (h : heap) : acyclic h -> forall p v, NoDup (chain_locs inh h v p).
Proof.
  intros Hac p. induction p as [|s p IH]; intros v.
  - destruct v; simpl; repeat constructor; by inversion 1.
  - destruct v as [| | | | |d|]; try (constructor; fail).
    destruct p as [|s2 p]; [rewrite chain_locs_one; repeat constructor; by inversion 1|].
    rewrite chain_locs_cons2.
    destruct (get_prop inh h (VRef d) (key s)) as [x| |] eqn:Hg; [|constructor; [by inversion 1|constructor]..].
    constructor; [|apply IH].
    destruct x as [| | | | |d'|]; try (by inversion 1).
    intros Hd. apply chain_locs_reach in Hd.
    apply get_prop_ref in Hg as (c & o & [= <-] & Hc & Hin); [|done].
    apply (Hac d'). apply clos_rt_t with d; [done|]. apply t_step. by exists o.
Qed.

Lemma chain_locs_bound (h : heap) : wf_heap h -> forall p v m,
  wf_val h v -> m ∈ chain_locs inh h v p -> m < length h.
Proof.
  intros Hh p. induction p as [|s p IH]; intros v m Hv Hm.
  - destruct v; simpl in Hm; try (by inversion Hm).
    apply list_elem_of_singleton in Hm. by subst.
  - destruct v as [| | | | |d|]; try (by inversion Hm).
    destruct p as [|s2 p].
    + rewrite chain_locs_one in Hm. apply list_elem_of_singleton in Hm. by subst.
    + rewrite chain_locs_cons2, elem_of_cons in Hm. destruct Hm as [->|Hm]; [done|].
      destruct (get_prop inh h (VRef d) (key s)) as [x| |] eqn:Hg; try (by inversion Hm).
      apply (IH x); [|done]. by eapply get_prop_wf.
Qed.

Lemma chain_locs_ext (h : heap) (o : obj) : wf_heap h -> forall p v,
  wf_val h v -> chain_locs inh (h ++ [o])%list v p = chain_locs inh h v p.
Proof.
  intros Hh p. induction p as [|s p IH]; intros v Hv; [by destruct v|].
  destruct v as [| | | | |d|]; try done. destruct p as [|s2 p]; [done|].
  rewrite !chain_locs_cons2, get_prop_ext by done. f_equal.
  destruct (get_prop inh h (VRef d) (key s)) eqn:Hg; try done.
  apply IH. by eapply get_prop_wf.
Qed.

Lemma chain_ok_ext (h : heap) (o : obj) : wf_heap h -> forall p v,
  wf_val h v -> chain_ok inh h v p -> chain_ok inh (h ++ [o])%list v p.
Proof.
  intros Hh p. induction p as [|s p IH]; intros v Hv Hc; [done|].
  destruct p as [|s2 p]; [done|].
  rewrite chain_ok_cons2 in Hc |- *. rewrite get_prop_ext by done.
  destruct (get_prop inh h v (key s)) as [[| | | | |d|]| |] eqn:Hg; try done.
  apply IH; [|done]. by eapply get_prop_wf.
Qed.

Lemma chain_ok_prefixes (h : heap) (p : path) : forall d,
  prefixes_ok inh h (VRef d) p -> chain_ok inh h (VRef d) p.
Proof.
  induction p as [|s p IH]; intros d Hp; [done|]. destruct p as [|s2 p]; [done|].
  rewrite chain_ok_cons2.
  destruct (Hp [s] (s2 :: p)) as [Hw|[l Hw]]; [done|done|done| |];
    rewrite walk_cons in Hw; simpl nullish in Hw; cbv iota in Hw;
    destruct (get_prop inh h (VRef d) (key s)) as [x| |] eqn:Hg; try discriminate;
    unfold mbind, res_bind in Hw; simpl in Hw; injection Hw as ->; [done|].
  apply IH. intros q r Hq Hne Hr. rewrite Hq in Hp.
  specialize (Hp (s :: q) r eq_refl ltac:(done) Hr).
  rewrite walk_cons, Hg in Hp. exact Hp.
Qed.

End Chain.

(* ------------------------------------------------------------------ *)
(** ** The write loop *)

Section Loop.

Variable inh : pkind -> string -> val.
Hypothesis inh_noref : forall k p l, inh k p <> VRef l.
Variable value : val.

Lemma wf_heap_set_own (h : heap) (l : loc) (o : obj) (k : string) (x : val) :
  wf_heap h -> h !! l = Some o -> wf_val h x -> wf_heap (<[l := set_own k x o]> h).
Proof.
  intros Hh Hl Hx. apply wf_heap_insert; [done|].
  intros v Hv. apply in_set_own in Hv as [->|Hv]; [done|]. by eapply Hh.
Qed.

Lemma lookup_set_own_arr (h : heap) (c : loc) (o : obj) (k : string) (x : val) :
  h !! c = Some o ->
  forall l o0, h !! l = Some o0 -> exists o', <[c := set_own k x o]> h !! l = Some o' /\ is_arr o' = is_arr o0.
Proof.
  intros Hc l o0 Hl. destruct (decide (l = c)) as [->|Hne].
  - exists (set_own k x o). rewrite list_lookup_insert_eq by (by eapply lookup_lt_Some).
    split; [done|]. rewrite is_arr_set_own. congruence.
  - exists o0. by rewrite list_lookup_insert_ne by done.
Qed.

Lemma walk_step (h : heap) (c : loc) (o : obj) (s : seg) (q : path) :
  h !! c = Some o -> walk inh h (VRef c) (s :: q) = walk inh h (obj_get inh o (key s)) q.
Proof. intros Hc. simpl. rewrite Hc. reflexivity. Qed.

(** One turn of the loop where [cur[seg]] is [undefined]: a fresh
    container is stored there and the loop goes on in it. *)
Lemma set_loop_step_new (h : heap) (c : loc) (o : obj) (s s2 : seg) (rest : path) :
  h !! c = Some o -> plain_key inh (key s) -> obj_get inh o (key s) = VUndef ->
  set_loop inh h (VRef c) (s :: s2 :: rest) value =
  set_loop inh (<[c := set_own (key s) (VRef (length h)) o]> (h ++ [empty_for s2])%list)
           (VRef (length h)) (s2 :: rest) value.
Proof.
  intros Ho Hk Hx. rewrite set_loop_cons2, (get_prop_obj inh _ _ _ _ Ho), Hx.
  unfold mbind, res_bind. cbn [is_undef alloc].
  rewrite (set_prop_plain inh _ c o _ _ Hk (lookup_app_l_Some _ _ _ _ Ho)). cbv beta iota.
  rewrite (get_prop_obj inh _ c (set_own (key s) (VRef (length h)) o)).
  - by rewrite (obj_get_own inh _ _ _ (own_set_own _ _ _)).
  - apply list_lookup_insert_eq. rewrite length_app. simpl.
    pose proof (lookup_lt_Some _ _ _ Ho). lia.
Qed.

(** One turn of the loop where [cur[seg]] is a container: the loop goes on
    in it. *)
Lemma set_loop_step_old (h : heap) (c : loc) (o : obj) (s s2 : seg) (rest : path) (d : loc) :
  h !! c = Some o -> obj_get inh o (key s) = VRef d ->
  set_loop inh h (VRef c) (s :: s2 :: rest) value = set_loop inh h (VRef d) (s2 :: rest) value.
Proof.
  intros Ho Hx. rewrite set_loop_cons2, (get_prop_obj inh _ _ _ _ Ho), Hx.
  unfold mbind, res_bind. cbn [is_undef]. by rewrite (get_prop_obj inh _ _ _ _ Ho), Hx.
Qed.

(** The loop on a chain of existing containers ending in fresh ones: it
    succeeds, the path then reads [value], it touches no other existing
    object, and a container it creates is an array exactly when the next
    segment is a number. *)
Lemma set_loop_spec (p : path) : forall h c,
  wf_heap h -> c < length h -> plain_path inh p -> p <> [] ->
  chain_ok inh h (VRef c) p -> NoDup (chain_locs inh h (VRef c) p) ->
  exists h', set_loop inh h (VRef c) p value = Ok h' /\
    walk inh h' (VRef c) p = Ok value /\
    length h <= length h' /\
    (forall l, l < length h -> l ∉ chain_locs inh h (VRef c) p -> h' !! l = h !! l) /\
    (forall l o, h !! l = Some o -> exists o', h' !! l = Some o' /\ is_arr o' = is_arr o) /\
    (forall j, j + 1 < length p -> walk inh h (VRef c) (take (j + 1) p) = Ok VUndef ->
       exists l o, walk inh h' (VRef c) (take (j + 1) p) = Ok (VRef l) /\
                   h' !! l = Some o /\ is_arr o = seg_is_num (p !! (j + 1))).
Proof.
  induction p as [|s rest IH]; intros h c Hh Hc Hpl Hne Hch Hnd; [done|].
  destruct (lookup_lt_is_Some_2 h c Hc) as [o Ho].
  pose proof (Forall_inv Hpl) as Hk. simpl in Hk.
  destruct rest as [|s2 rest].
  - (* the last segment: [cur[seg] = value] *)
    exists (<[c := set_own (key s) value o]> h). split_and!.
    + exact (set_prop_plain inh h c o (key s) value Hk Ho).
    + rewrite walk_cons. simpl nullish. cbv iota.
      rewrite (get_prop_obj inh _ c (set_own (key s) value o)) by (by apply list_lookup_insert_eq).
      unfold mbind, res_bind. rewrite (obj_get_own inh _ _ value (own_set_own _ _ _)). reflexivity.
    + by rewrite length_insert.
    + intros l _ Hl. rewrite chain_locs_one in Hl. apply list_lookup_insert_ne.
      intros ->. apply Hl. by left.
    + by apply lookup_set_own_arr.
    + simpl. lia.
  - pose proof (Forall_inv (Forall_inv_tail Hpl)) as Hk2. simpl in Hk2.
    assert (Hg : get_prop inh h (VRef c) (key s) = Ok (obj_get inh o (key s))) by (by apply get_prop_obj).
    destruct (obj_get inh o (key s)) as [| | | | |d|] eqn:Hx;
      rewrite chain_ok_cons2, Hg in Hch; try done.
    + (* [cur[seg]] is missing: a fresh container *)
      rewrite (set_loop_step_new h c o s s2 rest Ho Hk Hx).
      assert (Hc1 : c < length h) by done.
      remember (<[c := set_own (key s) (VRef (length h)) o]> (h ++ [empty_for s2])%list) as h2 eqn:Eh2.
      assert (Hlen2 : length h2 = S (length h)) by (subst; rewrite length_insert, length_app; simpl; lia).
      assert (Ho2 : h2 !! c = Some (set_own (key s) (VRef (length h)) o)).
      { subst. apply list_lookup_insert_eq. rewrite length_app. simpl. lia. }
      assert (Hf2 : h2 !! length h = Some (empty_for s2)).
      { subst. rewrite list_lookup_insert_ne by lia. apply lookup_alloc. }
      assert (Hold : forall l, l < length h -> l <> c -> h2 !! l = h !! l).
      { intros l Hl Hne'. subst. rewrite list_lookup_insert_ne by done. by apply lookup_app_l. }
      assert (He : obj_get inh (empty_for s2) (key s2) = VUndef) by (by apply obj_get_empty).
      assert (Hwf2 : wf_heap h2).
      { subst h2. apply wf_heap_set_own; [|by apply lookup_app_l_Some|simpl; rewrite length_app; simpl; lia].
        apply wf_heap_app; [done|]. intros v Hv. destruct s2; simpl in Hv; inversion Hv. }
      assert (Hlocs2 : chain_locs inh h2 (VRef (length h)) (s2 :: rest) = [length h]).
      { destruct rest as [|s3 rest]; [done|].
        rewrite chain_locs_cons2, (get_prop_obj inh _ _ _ _ Hf2), He. by rewrite chain_locs_undef. }
      assert (Hch2 : chain_ok inh h2 (VRef (length h)) (s2 :: rest)).
      { destruct rest as [|s3 rest]; [done|]. by rewrite chain_ok_cons2, (get_prop_obj inh _ _ _ _ Hf2), He. }
      destruct (IH h2 (length h) Hwf2 ltac:(lia) (Forall_inv_tail Hpl) ltac:(done) Hch2)
        as (h' & Hset & Hwalk & Hle & Hfr & Harr & Hnum).
      { rewrite Hlocs2. repeat constructor. by inversion 1. }
      rewrite Hlocs2 in Hfr.
      assert (Hc' : h' !! c = h2 !! c).
      { apply Hfr; [lia|]. intros Hin%list_elem_of_singleton. lia. }
      assert (Hwc : forall q, walk inh h' (VRef c) (s :: q) = walk inh h' (VRef (length h)) q).
      { intros q. rewrite (walk_step h' c _ s q (eq_trans Hc' Ho2)).
        by rewrite (obj_get_own inh _ _ _ (own_set_own _ _ _)). }
      exists h'. split_and!.
      * exact Hset.
      * rewrite Hwc. exact Hwalk.
      * lia.
      * intros l Hl Hnin. rewrite Hfr by (lia || (intros Hin%list_elem_of_singleton; lia)).
        apply Hold; [done|]. intros ->. apply Hnin. rewrite chain_locs_cons2. apply list_elem_of_here.
      * intros l o0 Hl0.
        destruct (lookup_set_own_arr (h ++ [empty_for s2])%list c o (key s) (VRef (length h))
                    (lookup_app_l_Some _ _ _ _ Ho) l o0 (lookup_app_l_Some _ _ _ _ Hl0)) as (o2 & Hl2 & Ha2).
        rewrite <- Eh2 in Hl2. destruct (Harr l o2 Hl2) as (o' & Hl' & Ha').
        exists o'. split; [done|congruence].
      * intros j Hj Hw0. destruct j as [|j].
        -- destruct (Harr _ _ Hf2) as (o' & Hl' & Ha'). exists (length h), o'. split_and!.
           ++ simpl take. rewrite Hwc. reflexivity.
           ++ exact Hl'.
           ++ rewrite Ha'. by destruct s2.
        -- destruct (Hnum j) as (l & o' & Hwl & Hl' & Ha').
           { simpl in Hj |- *. lia. }
           { rewrite Nat.add_1_r. simpl take. rewrite (walk_step h2 _ _ _ _ Hf2), He.
             rewrite walk_nullish by done. by case_bool_decide. }
           exists l, o'. split_and!; [|exact Hl'|exact Ha'].
           simpl take. rewrite Hwc. exact Hwl.
    + (* [cur[seg]] is a container: the loop goes on in it *)
      rewrite (set_loop_step_old h c o s s2 rest d Ho Hx).
      assert (Hd : d < length h) by exact (Hh c o (VRef d) Ho (obj_get_ref inh inh_noref o (key s) d Hx)).
      rewrite chain_locs_cons2, Hg in Hnd. apply NoDup_cons in Hnd as [Hcn Hnd].
      destruct (IH h d Hh Hd (Forall_inv_tail Hpl) ltac:(done) Hch Hnd)
        as (h' & Hset & Hwalk & Hle & Hfr & Harr & Hnum).
      assert (Hc' : h' !! c = h !! c) by (by apply Hfr).
      assert (Hwc : forall q, walk inh h' (VRef c) (s :: q) = walk inh h' (VRef d) q).
      { intros q. by rewrite (walk_step h' c o s q (eq_trans Hc' Ho)), Hx. }
      exists h'. split_and!.
      * exact Hset.
      * rewrite Hwc. exact Hwalk.
      * lia.
      * intros l Hl Hnin. apply Hfr; [done|]. intros Hin. apply Hnin.
        rewrite chain_locs_cons2, Hg. by apply list_elem_of_further.
      * exact Harr.
      * intros j Hj Hw0. destruct j as [|j].
        -- simpl take in Hw0. rewrite (walk_step h c o s _ Ho), Hx in Hw0. discriminate.
        -- simpl take in Hw0 |- *. rewrite (walk_step h c o s _ Ho), Hx in Hw0.
           destruct (Hnum j) as (l & o' & Hwl & Hl' & Ha'); [simpl in Hj |- *; lia|exact Hw0|].
           exists l, o'. split_and!; [|exact Hl'|exact Ha']. rewrite Hwc. exact Hwl.
Qed.

End Loop.

(* ------------------------------------------------------------------ *)
(** ** The copy of the outermost container *)

Section Clone.

Variable inh : pkind -> string -> val.
Hypothesis inh_noref : forall k p l, inh k p <> VRef l.

Lemma assoc_string_props (str : string) : forall i k x,
  assoc k (string_props i str) = Some x ->
  exists j ch, k = string_of_N (N.of_nat (i + j)) /\ String.get j str = Some ch /\
               x = VStr (String ch EmptyString).
Proof.
  induction str as [|ch str IH]; intros i k x H; simpl in H; [discriminate|].
  destruct (String.eqb k (string_of_N (N.of_nat i))) eqn:E.
  - injection H as <-. apply String.eqb_eq in E. exists 0, ch. rewrite Nat.add_0_r. done.
  - destruct (IH (S i) k x H) as (j & ch' & -> & Hj & ->).
    exists (S j), ch'. split_and!; [|exact Hj|reflexivity]. do 2 f_equal. lia.
Qed.

Lemma string_props_vals (h : heap) (str : string) : forall i v,
  v ∈ map snd (string_props i str) -> wf_val h v.
Proof.
  induction str as [|ch str IH]; intros i v Hv; simpl in Hv; [by inversion Hv|].
  rewrite elem_of_cons in Hv. destruct Hv as [->|Hv]; [done|by eapply IH].
Qed.

Lemma inh_wf (h : heap) (pk : pkind) (k : string) : wf_val h (inh pk k).
Proof. destruct (inh pk k) eqn:E; simpl; try done. by apply inh_noref in E. Qed.

(** The copy exists, and holds only values of the heap. *)
Lemma clone_ok (h : heap) (d : val) : wf_heap h -> doc_val h d ->
  exists oc, clone_of inh h d = Ok oc /\ forall v, v ∈ obj_vals oc -> wf_val h v.
Proof.
  intros Hh Hd. destruct d as [| | | |str|l|]; simpl in Hd; try done;
    try (eexists; split; [reflexivity|]; intros v Hv; by inversion Hv).
  - eexists. split; [reflexivity|]. apply string_props_vals.
  - destruct (lookup_lt_is_Some_2 h l Hd) as [o Ho].
    unfold clone_of, is_array_val, obj_spread. rewrite Ho.
    destruct o as [es nm|ps]; (eexists; split; [reflexivity|]); intros v Hv.
    + simpl in Hv. rewrite elem_of_app in Hv. destruct Hv as [Hv|Hv]; [|by inversion Hv].
      apply list_elem_of_omap in Hv as [e [He ->]].
      apply list_elem_of_lookup in He as [i Hi]. rewrite list_lookup_imap in Hi.
      destruct (es !! i) as [[x|]|] eqn:Ei; simpl in Hi; [injection Hi as <-|injection Hi as <-; apply inh_wf|discriminate].
      eapply Hh; [exact Ho|]. simpl. rewrite elem_of_app. left.
      apply list_elem_of_omap. exists (Some x). split; [by eapply list_elem_of_lookup_2|done].
    + by eapply Hh.
Qed.

Lemma obj_get_wf (h : heap) (o : obj) (k : string) :
  (forall v, v ∈ obj_vals o -> wf_val h v) -> wf_val h (obj_get inh o k).
Proof.
  intros Ho. unfold obj_get. destruct (own k o) eqn:E; [by apply Ho, (own_in_vals k)|].
  destruct o; [destruct (String.eqb k "length"); [done|]|]; apply inh_wf.
Qed.

(** A plain key of the copy reads what it reads on the original, or
    nothing. *)
Lemma clone_get (h : heap) (d : val) (oc : obj) (s : seg) :
  doc_val h d -> plain_key inh (key s) -> clone_of inh h d = Ok oc ->
  obj_get inh oc (key s) = VUndef \/ walk inh h d [s] = Ok (obj_get inh oc (key s)).
Proof.
  intros Hd (Hlen & Hpro & Hinh) Hc.
  destruct d as [| | | |str|l|]; simpl in Hd; try done.
  1-4: simpl in Hc; injection Hc as <-; left; exact (Hinh PObject).
  - simpl in Hc. injection Hc as <-. unfold obj_get. simpl own.
    destruct (assoc (key s) (string_props 0 str)) as [x|] eqn:E; [|left; exact (Hinh PObject)].
    right. destruct (assoc_string_props str 0 (key s) x E) as (j & ch & Hk & Hj & ->).
    simpl. rewrite (proj2 (String.eqb_neq _ _) Hlen). simpl in Hk.
    rewrite Hk, canonical_index_string_of_N, Nat2N.id, Hj. reflexivity.
  - destruct (lookup_lt_is_Some_2 h l Hd) as [o Ho].
    unfold clone_of, is_array_val, obj_spread in Hc. rewrite Ho in Hc.
    destruct o as [es nm|ps]; simpl in Hc; injection Hc as <-;
      rewrite (walk_step inh h l _ s [] Ho); cbn [walk]; [|by right].
    unfold arr_spread, obj_get. simpl own.
    destruct (array_index (key s)) as [n|] eqn:Ea.
    + rewrite list_lookup_imap. destruct (es !! N.to_nat n) as [[x|]|] eqn:Ei; simpl.
      * by right.
      * left. rewrite N2Nat.id, (array_index_spec _ _ Ea). exact (Hinh PArray).
      * left. rewrite (proj2 (String.eqb_neq _ _) Hlen). exact (Hinh PArray).
    + left. rewrite (proj2 (String.eqb_neq _ _) Hlen). exact (Hinh PArray).
Qed.

End Clone.

(* ------------------------------------------------------------------ *)
(** ** Writing a path *)

Section Fidelity.

Variable inh : pkind -> string -> val.
Hypothesis inh_noref : forall k p l, inh k p <> VRef l.

Lemma setValueAtPath_spec (h : heap) (d : val) (p : path) (value : val) :
  wf_heap h -> acyclic h -> doc_val h d -> plain_path inh p -> prefixes_ok inh h d p ->
  exists h' r, setValueAtPath inh h d (Some p) value = Ok (h', r) /\
    getValueAtPath inh h' r (Some p) = Ok value /\
    (forall i, i + 1 < length p -> getValueAtPath inh h d (Some (take (i + 1) p)) = Ok VUndef ->
       exists l o, getValueAtPath inh h' r (Some (take (i + 1) p)) = Ok (VRef l) /\
                   h' !! l = Some o /\ is_arr o = seg_is_num (p !! (i + 1))).
Proof.
  intros Hh Hac Hd Hpl Hpre. destruct p as [|s p'].
  { exists h, value. split_and!; [done|done|]. intros i Hi. simpl in Hi. lia. }
  destruct (clone_ok inh inh_noref h d Hh Hd) as (oc & Hc & Hoc).
  pose proof (Forall_inv Hpl) as Hk. simpl in Hk.
  assert (Hwf1 : wf_heap (h ++ [oc])%list) by (by apply wf_heap_app).
  assert (Hoc1 : (h ++ [oc])%list !! length h = Some oc) by apply lookup_alloc.
  assert (Hlen1 : length h < length (h ++ [oc])%list) by (rewrite length_app; simpl; lia).
  assert (Hx : wf_val h (obj_get inh oc (key s))) by (by apply obj_get_wf).
  (* a path missing in the document is missing in its copy *)
  assert (Hfirst : forall q, walk inh h d (s :: q) = Ok VUndef ->
                   walk inh (h ++ [oc])%list (VRef (length h)) (s :: q) = Ok VUndef).
  { intros q Hq. rewrite (walk_step inh (h ++ [oc])%list (length h) oc s q Hoc1).
    rewrite (walk_ext inh inh_noref h oc Hh q _ Hx).
    destruct (clone_get inh h d oc s Hd Hk Hc) as [Hu|Hw].
    - rewrite Hu. rewrite walk_nullish by done. by case_bool_decide.
    - rewrite <- Hq. symmetry. exact (walk_app inh h [s] q d _ Hw). }
  assert (Hch : chain_ok inh (h ++ [oc])%list (VRef (length h)) (s :: p')).
  { destruct p' as [|s2 r]; [done|]. rewrite chain_ok_cons2, (get_prop_obj inh _ _ _ _ Hoc1).
    destruct (clone_get inh h d oc s Hd Hk Hc) as [Hu|Hw]; [by rewrite Hu|].
    destruct (Hpre [s] (s2 :: r)) as [Hw'|[l Hw']]; [done|done|done| |];
      rewrite Hw in Hw'; injection Hw' as Hw'; rewrite Hw'; [done|].
    rewrite Hw' in Hx. apply chain_ok_ext; [done|done|done|]. apply chain_ok_prefixes.
    intros q r' Hq Hne Hr.
    assert (E : walk inh h (VRef l) q = walk inh h d (s :: q)).
    { rewrite <- Hw'. symmetry. exact (walk_app inh h [s] q d _ Hw). }
    rewrite E. apply (Hpre (s :: q) r'); [by rewrite Hq|done|done]. }
  assert (Hnd : NoDup (chain_locs inh (h ++ [oc])%list (VRef (length h)) (s :: p'))).
  { destruct p' as [|s2 r]; [rewrite chain_locs_one; repeat constructor; by inversion 1|].
    rewrite chain_locs_cons2, (get_prop_obj inh _ _ _ _ Hoc1).
    rewrite (chain_locs_ext inh inh_noref h oc Hh _ _ Hx). constructor.
    - intros Hin. apply (chain_locs_bound inh inh_noref h Hh _ _ _ Hx) in Hin. lia.
    - by apply chain_locs_nodup. }
  destruct (set_loop_spec inh inh_noref value (s :: p') (h ++ [oc])%list (length h)
              Hwf1 Hlen1 Hpl ltac:(done) Hch Hnd) as (h' & Hset & Hwalk & _ & _ & _ & Hnum).
  exists h', (VRef (length h)). split_and!.
  - unfold setValueAtPath. cbv beta iota. rewrite Hc. unfold mbind, res_bind, alloc.
    cbv beta iota. rewrite Hset. reflexivity.
  - exact Hwalk.
  - intros i Hi Hu. rewrite Nat.add_1_r in Hu. simpl take in Hu.
    destruct (Hnum i Hi) as (l & o & Hl & Ho & Ha).
    { rewrite Nat.add_1_r. simpl take. by apply Hfirst. }
    exists l, o. split_and!; [|exact Ho|exact Ha].
    revert Hl. rewrite Nat.add_1_r. simpl take. done.
Qed.

End Fidelity.

(* ================================================================== *)
(** * Further properties of the component *)

(* ------------------------------------------------------------------ *)
(** ** Reading along a path in steps *)

Section Compose.

Variable inh : pkind -> string -> val.

Lemma walk_app_bind (h : heap) (q r : path) : forall v,
  walk inh h v (q ++ r)%list = (x ← walk inh h v q; walk inh h x r).
Proof.
  induction q as [|s q IH]; intros v; [reflexivity|].
  cbn [app]. rewrite !walk_cons. destruct (nullish v).
  - simpl. destruct r; reflexivity.
  - unfold mbind, res_bind. destruct (get_prop inh h v (key s)); [apply IH|done|done].
Qed.

Lemma getValueAtPath_walk (h : heap) (v : val) (r : path) :
  getValueAtPath inh h v (Some r) = walk inh h v r.
Proof. by destruct r. Qed.

(** X1: resolving [q ++ r] is resolving [q], then resolving [r] in what
    it gave. *)
Theorem getValueAtPath_app (h : heap) (d : val) (q r : path) :
  getValueAtPath inh h d (Some (q ++ r)%list) =
  (x ← getValueAtPath inh h d (Some q); getValueAtPath inh h x (Some r)).
Proof.
  rewrite !getValueAtPath_walk, walk_app_bind. unfold mbind, res_bind.
  destruct (walk inh h d q); [|done|done]. by rewrite getValueAtPath_walk.
Qed.

End Compose.

(* ------------------------------------------------------------------ *)
(** ** The Cancel button and the error message *)

Section Buttons.

Variable inh : pkind -> string -> val.
Variable json_parse : string -> string + jtree.
Variable graph_nodes : string -> list gnode.

Lemma current_text_json (w w' : world) (n : option gnode) :
  json_text w = json_text w' -> current_text inh json_parse w n = current_text inh json_parse w' n.
Proof. intros E. unfold current_text. by rewrite E. Qed.

Lemma set_ui_ext (w w' : world) (ed : bool) (ev er : option string) :
  json_text w = json_text w' -> file_contents w = file_contents w' -> log w = log w' ->
  set_ui w ed ev er = set_ui w' ed ev er.
Proof. intros E1 E2 E3. unfold set_ui. by rewrite E1, E2, E3. Qed.

(** X2: Cancel discards the edit: whatever was typed, whatever error is
    shown, and whether editing or not, Cancel returns the component to the
    state the node-change effect produced, as long as the document and the
    store calls are those of that state. *)
Theorem cancel_restores_view (w w1 w3 : world) (n : option gnode) :
  on_node_change inh json_parse w n = Ok w1 ->
  json_text w3 = json_text w1 -> file_contents w3 = file_contents w1 -> log w3 = log w1 ->
  cancel_edit inh json_parse w3 n = Ok w1.
Proof.
  unfold on_node_change, cancel_edit. intros H E1 E2 E3.
  destruct (current_text inh json_parse w n) as [r| |] eqn:C; try discriminate.
  injection H as <-. simpl in E1, E2, E3.
  rewrite (current_text_json w3 w n E1), C. simpl. f_equal. by apply set_ui_ext.
Qed.

Lemma handleSave_outcome (w w' : world) (n : option gnode) :
  handleSave inh json_parse graph_nodes w n = Ok w' ->
  editing w' = editing w \/ (editing w' = false /\ error w' = None).
Proof.
  unfold handleSave. repeat case_match; intros [= <-]; simpl; auto.
Qed.

Lemma ui_step_error (w w' : world) :
  ui_step inh json_parse graph_nodes w w' ->
  editing w = true \/ error w = None -> editing w' = true \/ error w' = None.
Proof.
  intros Hs Hw. destruct Hs as [w n w' H|w n w' Hed H|w s Hed|w n w' Hed H|w n w' Hed H|w s].
  - unfold on_node_change in H. destruct (current_text inh json_parse w n); try discriminate.
    injection H as <-. by right.
  - unfold start_edit in H. destruct (current_text inh json_parse w n); try discriminate.
    injection H as <-. by left.
  - by left.
  - destruct (handleSave_outcome w w' n H) as [E|[_ E]]; [left; congruence|by right].
  - unfold cancel_edit in H. destruct (current_text inh json_parse w n); try discriminate.
    injection H as <-. by right.
  - exact Hw.
Qed.

(** X3: an error message is only ever set while editing: in every state
    the component reaches from mounting, either the editor is open (where
    the message is rendered) or there is no message. *)
Theorem ui_error_only_while_editing (text contents : string) (w : world) :
  clos_refl_trans world (ui_step inh json_parse graph_nodes) (mount text contents) w ->
  editing w = true \/ error w = None.
Proof.
  intros Hr. apply clos_rt_rt1n in Hr.
  assert (Hi : editing (mount text contents) = true \/ error (mount text contents) = None) by (by right).
  revert Hi. induction Hr as [|x y z Hxy _ IH]; intros Hx; [done|].
  apply IH. by apply (ui_step_error x y).
Qed.

End Buttons.

Lemma cancel_restores_view_witness :
  cancel_edit js_inherited demo_parse
    {| editing := true; editValue := Some "[1,2"; error := Some "Unexpected end of JSON input";
       json_text := "{}"; file_contents := "{}"; log := [] |} (Some demo_node)
  = Ok (set_ui (demo_world false None) false None None).
Proof.
  apply (cancel_restores_view js_inherited demo_parse (demo_world false None)); reflexivity.
Defined.

Lemma ui_error_only_while_editing_witness :
  editing {| editing := true; editValue := Some "{invalid";
             error := Some "Unexpected token i in JSON at position 1";
             json_text := "{}"; file_contents := "{}"; log := [] |} = true \/
  error {| editing := true; editValue := Some "{invalid";
           error := Some "Unexpected token i in JSON at position 1";
           json_text := "{}"; file_contents := "{}"; log := [] |} = None.
Proof.
  apply (ui_error_only_while_editing js_inherited demo_parse (fun _ => []) "{}" "{}").
  eapply rt_trans; [apply rt_step; apply (ui_edit _ _ _ _ (Some demo_node)); reflexivity|].
  eapply rt_trans; [apply rt_step; apply (ui_type _ _ _ _ "{invalid"); reflexivity|].
  apply rt_step. apply (ui_save _ _ _ _ (Some demo_node)); reflexivity.
Defined.

(* ------------------------------------------------------------------ *)
(** ** Distinct paths are rendered distinctly *)

Lemma has_char_app (c : ascii) (a b : string) : has_char c (a ++ b) = has_char c a || has_char c b.
Proof. induction a as [|c' a IH]; simpl; [done|]. rewrite IH. apply orb_assoc. Qed.

(** The first occurrence of [c] splits a string in one way only. *)
Lemma split_at_char (c : ascii) (a b x y : string) :
  has_char c a = false -> has_char c b = false ->
  a ++ String c x = b ++ String c y -> a = b /\ x = y.
Proof.
  revert b. induction a as [|ca a IH]; intros b Ha Hb E; destruct b as [|cb b]; simpl in *.
  - injection E as ->. done.
  - injection E as -> _. by rewrite Ascii.eqb_refl in Hb.
  - injection E as <- _. by rewrite Ascii.eqb_refl in Ha.
  - apply orb_false_iff in Ha as [_ Ha]. apply orb_false_iff in Hb as [_ Hb].
    injection E as <- E. destruct (IH b Ha Hb E) as [-> ->]. done.
Qed.

(** Decimal numerals hold digits only. *)
Lemma has_char_string_of_uint (c : ascii) (u : Decimal.uint) :
  Forall (fun d => Ascii.eqb c d = false) ["0"; "1"; "2"; "3"; "4"; "5"; "6"; "7"; "8"; "9"]%char ->
  has_char c (string_of_uint u) = false.
Proof.
  intros Hd. repeat (apply Forall_cons_iff in Hd as [? Hd]).
  induction u; simpl; try done; rewrite IHu; by rewrite ?orb_false_r.
Qed.

Lemma string_of_N_no_bracket (n : N) : has_char "]" (string_of_N n) = false.
Proof. apply has_char_string_of_uint. repeat constructor. Qed.

Lemma string_of_N_no_quote (n : N) : has_char (Ascii.ascii_of_nat 34) (string_of_N n) = false.
Proof. apply has_char_string_of_uint. repeat constructor. Qed.

Lemma string_of_N_inj (n m : N) : string_of_N n = string_of_N m -> n = m.
Proof.
  intros E. pose proof (canonical_index_string_of_N n) as Hn.
  rewrite E, canonical_index_string_of_N in Hn. congruence.
Qed.

(** One segment and its closing bracket are read back from the text. *)
Lemma seg_text_split (s1 s2 : seg) (r1 r2 : string) :
  quote_free s1 = true -> quote_free s2 = true ->
  seg_text s1 ++ String "]" r1 = seg_text s2 ++ String "]" r2 -> s1 = s2 /\ r1 = r2.
Proof.
  intros Q1 Q2 E. destruct s1 as [n1|k1], s2 as [n2|k2]; simpl in Q1, Q2, E.
  - apply split_at_char in E as [En ->]; [|apply string_of_N_no_bracket..].
    by rewrite (string_of_N_inj _ _ En).
  - exfalso. pose proof (string_of_N_no_quote n1) as Hq.
    destruct (string_of_N n1) as [|c t] eqn:En; [by apply string_of_N_nonempty in En|].
    simpl in E. injection E as Ec _. subst c. cbn [has_char] in Hq.
    by rewrite Ascii.eqb_refl in Hq.
  - exfalso. pose proof (string_of_N_no_quote n2) as Hq.
    destruct (string_of_N n2) as [|c t] eqn:En; [by apply string_of_N_nonempty in En|].
    simpl in E. injection E as Ec _. subst c. cbn [has_char] in Hq.
    by rewrite Ascii.eqb_refl in Hq.
  - apply negb_true_iff in Q1, Q2. unfold dq in E. simpl in E. injection E as E.
    rewrite !str_app_assoc in E. simpl in E.
    apply split_at_char in E as [-> E]; [|done|done]. injection E as ->. done.
Qed.

Lemma path_text_cons (s : seg) (p : path) :
  join "][" (map seg_text (s :: p)) ++ "]" =
  seg_text s ++ String "]" (match p with [] => "" | _ => "[" ++ join "][" (map seg_text p) ++ "]" end).
Proof.
  destruct p as [|s2 p]; simpl.
  - reflexivity.
  - by rewrite !str_app_assoc.
Qed.

Lemma path_text_inj (p : path) : forall q,
  p <> [] -> q <> [] -> Forall (fun s => quote_free s = true) p -> Forall (fun s => quote_free s = true) q ->
  join "][" (map seg_text p) ++ "]" = join "][" (map seg_text q) ++ "]" -> p = q.
Proof.
  induction p as [|s1 p IH]; intros q Hp Hq Fp Fq E; [done|]. destruct q as [|s2 q]; [done|].
  rewrite !path_text_cons in E. apply Forall_cons in Fp as [Q1 Fp]. apply Forall_cons in Fq as [Q2 Fq].
  apply seg_text_split in E as [-> E]; [|done|done]. f_equal.
  destruct p as [|s p], q as [|s' q]; try done.
  rewrite !str_app_cons, !str_app_nil in E. injection E as E. by apply IH.
Qed.

(** X4: [jsonPathToString] never renders two different paths alike, as
    long as no string segment contains a double quote (which it does not
    escape): a number [n] and the string ["n"] differ, and so do paths of
    different lengths.  With a quote the renderings can meet: the single
    key [a"]["b] renders as the path [["a","b"]]. *)
Theorem jsonPathToString_injective :
  (forall p q : path,
     Forall (fun s => quote_free s = true) p -> Forall (fun s => quote_free s = true) q ->
     jsonPathToString (Some p) = jsonPathToString (Some q) -> p = q) /\
  jsonPathToString (Some [SStr ("a" ++ dq ++ "][" ++ dq ++ "b")]) =
  jsonPathToString (Some [SStr "a"; SStr "b"]).
Proof.
  split; [|reflexivity].
  intros p q Fp Fq E. destruct p as [|s p], q as [|s' q]; [done| | |].
  - discriminate E.
  - discriminate E.
  - unfold jsonPathToString in E. injection E as E.
    apply (path_text_inj (s :: p) (s' :: q)); done.
Qed.

Lemma jsonPathToString_injective_witness :
  [SNum 0; SStr "items"] = [SNum 0; SStr "items"].
Proof.
  apply (proj1 jsonPathToString_injective); [repeat constructor..|reflexivity].
Defined.

(* ------------------------------------------------------------------ *)
(** ** Writing into primitives *)

Section Primitive.

Variable inh : pkind -> string -> val.
Hypothesis inh_noref : forall k p l, inh k p <> VRef l.

(** X5: a document that is [null], a boolean or a number is
    copied as the empty object ([{ ...obj }] of a primitive is [{}]): a
    write at any path gives the same heap and the same result as on an
    empty object [{}]. *)
Theorem setValueAtPath_primitive_doc (h : heap) (d : val) (l : loc) (p : option path) (v : val) :
  h !! l = Some (OObj []) -> is_primitive d = true -> (forall s, d <> VStr s) ->
  setValueAtPath inh h d p v = setValueAtPath inh h (VRef l) p v.
Proof.
  intros Hl Hp Hs. destruct p as [[|s p]|]; try reflexivity.
  unfold setValueAtPath.
  assert (E : clone_of inh h (VRef l) = Ok (OObj [])).
  { unfold clone_of, is_array_val, obj_spread. by rewrite Hl. }
  rewrite E. destruct d as [| | | |str| |]; try done. by destruct (Hs str).
Qed.

(** From a primitive, the loop of [setValueAtPath] ends by assigning a
    property of a primitive (or reading one of [null]): it throws. *)
Lemma set_loop_prim (v : val) (p : path) : forall h cur,
  plain_path inh p -> p <> [] -> is_primitive cur = true ->
  exists msg, set_loop inh h cur p v = Throw msg.
Proof.
  induction p as [|s p IH]; intros h cur Hpl Hne Hc; [done|].
  pose proof (Forall_inv Hpl) as (Hlen & Hpro & Hinh).
  destruct p as [|s2 p].
  - destruct cur; try done; eexists; reflexivity.
  - rewrite set_loop_cons2.
    destruct cur as [| |b|z|str| |]; try done.
    + eexists. reflexivity.
    + unfold mbind, res_bind. cbn [get_prop]. rewrite (Hinh PBoolean). eexists. reflexivity.
    + unfold mbind, res_bind. cbn [get_prop]. rewrite (Hinh PNumber). eexists. reflexivity.
    + unfold mbind, res_bind. cbn [get_prop].
      rewrite (proj2 (String.eqb_neq _ _) Hlen).
      destruct (canonical_index (key s)) as [n|].
      * destruct (String.get (N.to_nat n) str) as [ch|].
        -- cbn [is_undef]. cbn [get_prop].
           apply IH; [exact (Forall_inv_tail Hpl)|done|done].
        -- rewrite (Hinh PString). eexists. reflexivity.
      * rewrite (Hinh PString). eexists. reflexivity.
Qed.

(** Through existing containers, the loop reads and writes nothing. *)
Lemma set_loop_follow (v : val) (r : path) (q : path) : forall h c x,
  r <> [] -> walk inh h (VRef c) q = Ok x -> is_undef x = false -> q <> [] ->
  (forall q1 q2, q = (q1 ++ q2)%list -> q1 <> [] -> q2 <> [] ->
     exists m, walk inh h (VRef c) q1 = Ok (VRef m)) ->
  set_loop inh h (VRef c) (q ++ r)%list v = set_loop inh h x r v.
Proof.
  induction q as [|s q IH]; intros h c x Hr Hw Hx Hq Hpre; [done|].
  destruct r as [|s2 r]; [done|].
  destruct q as [|s1 q].
  - simpl app. rewrite set_loop_cons2.
    rewrite walk_cons in Hw. simpl nullish in Hw. cbv iota in Hw.
    destruct (get_prop inh h (VRef c) (key s)) as [y| |] eqn:Hg; try discriminate.
    simpl in Hw. injection Hw as ->. unfold mbind, res_bind. rewrite Hx, Hg. reflexivity.
  - destruct (Hpre [s] (s1 :: q)) as [m Hm]; [done|done|done|].
    rewrite walk_cons in Hm. simpl nullish in Hm. cbv iota in Hm.
    destruct (get_prop inh h (VRef c) (key s)) as [y| |] eqn:Hg; try discriminate.
    simpl in Hm. injection Hm as ->.
    cbn [app]. rewrite set_loop_cons2. unfold mbind, res_bind. rewrite Hg. cbn [is_undef].
    rewrite Hg. apply IH; [done| |done|done|].
    + rewrite walk_cons, Hg in Hw. exact Hw.
    + intros q1 q2 E Hq1 Hq2. destruct (Hpre (s :: q1) q2) as [m' Hm']; [by rewrite E|done|done|].
      exists m'. rewrite walk_cons, Hg in Hm'. exact Hm'.
Qed.

(** X6: if a proper prefix of the path resolves, in a [JSON.parse]
    document that is an object or array, to [null], a boolean, a number or
    a string, the shorter prefixes resolving to objects or arrays, then
    [setValueAtPath] throws (a property of a primitive is assigned, or one
    of [null] is read). *)
Theorem setValueAtPath_throws_through_primitive (h : heap) (l : loc) (o : obj) (q r : path) (x v : val) :
  wf_heap h -> json_heap h -> h !! l = Some o -> plain_path inh (q ++ r)%list ->
  q <> [] -> r <> [] -> getValueAtPath inh h (VRef l) (Some q) = Ok x -> is_primitive x = true ->
  (forall q1 q2, q = (q1 ++ q2)%list -> q1 <> [] -> q2 <> [] ->
     exists m, getValueAtPath inh h (VRef l) (Some q1) = Ok (VRef m)) ->
  exists msg, setValueAtPath inh h (VRef l) (Some (q ++ r)%list) v = Throw msg.
Proof.
  intros Hh Hj Hl Hpl Hq Hr Hx Hpx Hpre.
  assert (Hl1 : l < length h) by (by eapply lookup_lt_Some).
  assert (Hla : (h ++ [o])%list !! length h = (h ++ [o])%list !! l).
  { rewrite lookup_alloc. symmetry. by apply lookup_app_l_Some. }
  assert (Hwq : forall q', q' <> [] -> walk inh (h ++ [o])%list (VRef (length h)) q' = walk inh h (VRef l) q').
  { intros [|s q'] Hne; [done|]. rewrite (walk_same_obj inh _ _ _ _ _ Hla). by apply walk_ext. }
  destruct q as [|s q]; [done|]. rewrite getValueAtPath_walk in Hx.
  unfold setValueAtPath. cbn [app].
  rewrite (clone_json inh h l o Hj Hl). unfold mbind, res_bind, alloc. cbv beta iota.
  change (s :: q ++ r)%list with ((s :: q) ++ r)%list.
  rewrite (set_loop_follow v r (s :: q) (h ++ [o])%list (length h) x Hr).
  - destruct (set_loop_prim v r (h ++ [o])%list x) as [msg Hm]; [|done|done|].
    + by apply Forall_app in Hpl as [_ Hpl].
    + exists msg. by rewrite Hm.
  - rewrite Hwq by done. exact Hx.
  - by destruct x.
  - done.
  - intros q1 q2 E Hq1 Hq2. destruct (Hpre q1 q2 E Hq1 Hq2) as [m Hm].
    exists m. rewrite Hwq by done. destruct q1; [done|]. exact Hm.
Qed.

End Primitive.

Lemma setValueAtPath_primitive_doc_witness :
  setValueAtPath js_inherited [OObj []] VNull (Some [SStr "a"]) (VNum 1) =
  setValueAtPath js_inherited [OObj []] (VRef 0) (Some [SStr "a"]) (VNum 1).
Proof.
  apply (setValueAtPath_primitive_doc js_inherited); [reflexivity|reflexivity|].
  intros s. discriminate.
Defined.

Lemma setValueAtPath_throws_through_primitive_witness :
  exists msg, setValueAtPath js_inherited doc_nested_heap (VRef 2)
                (Some ([SStr "a"; SNum 0] ++ [SStr "z"])%list) (VNum 5) = Throw msg.
Proof.
  apply (setValueAtPath_throws_through_primitive js_inherited js_inherited_noref doc_nested_heap 2
           (OObj [("a", VRef 1); ("c", VNull)]) [SStr "a"; SNum 0] [SStr "z"] (VNum 1)).
  - apply refs_backward_wf. vm_compute. reflexivity.
  - apply json_heapb_sound. vm_compute. reflexivity.
  - vm_compute. reflexivity.
  - apply plain_path_of_b. vm_compute. reflexivity.
  - discriminate.
  - discriminate.
  - vm_compute. reflexivity.
  - reflexivity.
  - intros [|s1 [|s2 q1]] q2 E H1 H2; [done| |].
    + injection E as <- <-. exists 1. vm_compute. reflexivity.
    + injection E as _ _ E. symmetry in E. by apply app_eq_nil in E as [_ ->].
Defined.

(* ------------------------------------------------------------------ *)
(** ** What a write leaves alone *)

Section Frame.

Variable inh : pkind -> string -> val.
Hypothesis inh_noref : forall k p l, inh k p <> VRef l.

Lemma chain_locs_nonref (h : heap) (x : val) (p : path) :
  (forall l, x <> VRef l) -> chain_locs inh h x p = [].
Proof. intros Hx. destruct x; try (by destruct p). exfalso. by eapply Hx. Qed.

Lemma set_prop_ok (h h' : heap) (cur : val) (k : string) (x : val) :
  set_prop h cur k x = Ok h' -> exists c o, cur = VRef c /\ h !! c = Some o /\ h' = <[c := set_own k x o]> h.
Proof.
  destruct cur as [| | | | |c|]; simpl; try discriminate.
  destruct (h !! c) as [o|] eqn:Hc; [|discriminate].
  repeat case_match; intros [= <-]; eauto.
Qed.

(** A fresh container holds no reference: the chain ends in it. *)
Lemma chain_locs_fresh (h : heap) (f : loc) (s2 : seg) (rest : path) :
  h !! f = Some (empty_for s2) -> forall m, m ∈ chain_locs inh h (VRef f) (s2 :: rest) -> m = f.
Proof.
  intros Hf m Hm. destruct rest as [|s3 rest].
  - rewrite chain_locs_one in Hm. by apply list_elem_of_singleton in Hm.
  - rewrite chain_locs_cons2, (get_prop_obj inh _ _ _ _ Hf), elem_of_cons in Hm.
    destruct Hm as [->|Hm]; [done|].
    rewrite chain_locs_nonref in Hm; [by inversion Hm|].
    intros l El. apply (obj_get_ref inh inh_noref) in El. destruct s2; simpl in El; inversion El.
Qed.

(** The loop of [setValueAtPath] changes no object of the heap outside the
    chain of containers it goes through, and only adds objects. *)
Lemma set_loop_frame_all (v : val) (p : path) : forall h cur h',
  set_loop inh h cur p v = Ok h' ->
  length h <= length h' /\
  forall l, l < length h -> l ∉ chain_locs inh h cur p -> h' !! l = h !! l.
Proof.
  induction p as [|s p IH]; intros h cur h' H.
  { injection H as <-. split; [done|]. by intros. }
  destruct p as [|s2 rest].
  - apply set_prop_ok in H as (c & o & -> & Hc & ->). split; [by rewrite length_insert|].
    intros l _ Hl. rewrite chain_locs_one in Hl. apply list_lookup_insert_ne.
    intros ->. apply Hl. by left.
  - assert (Hcons : forall c x, cur = VRef c -> get_prop inh h cur (key s) = Ok x ->
              chain_locs inh h cur (s :: s2 :: rest) = c :: chain_locs inh h x (s2 :: rest)).
    { intros c x -> Hg. by rewrite chain_locs_cons2, Hg. }
    rewrite set_loop_cons2 in H. unfold mbind, res_bind in H.
    destruct (get_prop inh h cur (key s)) as [x| |] eqn:Hg; try discriminate.
    destruct (is_undef x) eqn:Hu.
    + cbn [alloc] in H.
      destruct (set_prop (h ++ [empty_for s2])%list cur (key s) (VRef (length h))) as [h2| |] eqn:Hs;
        try discriminate.
      apply set_prop_ok in Hs as (c & o & -> & Hc & ->).
      assert (Hcl : c < length h).
      { simpl in Hg. destruct (h !! c) eqn:E; [by eapply lookup_lt_Some|discriminate]. }
      rewrite (get_prop_obj inh _ c (set_own (key s) (VRef (length h)) o)) in H.
      2:{ apply list_lookup_insert_eq. eapply lookup_lt_Some. exact Hc. }
      rewrite (obj_get_own inh _ _ _ (own_set_own _ _ _)) in H.
      destruct (IH _ _ _ H) as [Hlen Hfr].
      assert (Hf : <[c := set_own (key s) (VRef (length h)) o]> (h ++ [empty_for s2])%list !! length h
                   = Some (empty_for s2)).
      { rewrite list_lookup_insert_ne by lia. apply lookup_alloc. }
      split; [rewrite length_insert, length_app in Hlen; simpl in Hlen; lia|].
      intros l Hl Hn. rewrite (Hcons c x eq_refl eq_refl) in Hn.
      assert (Hlc : l <> c) by (intros ->; apply Hn; apply list_elem_of_here).
      rewrite Hfr.
      * rewrite list_lookup_insert_ne by done. by apply lookup_app_l.
      * rewrite length_insert, length_app. simpl. lia.
      * intros Hin. apply (chain_locs_fresh _ _ _ _ Hf) in Hin. lia.
    + rewrite Hg in H. destruct (IH _ _ _ H) as [Hlen Hfr]. split; [done|].
      intros l Hl Hn. apply Hfr; [done|]. intros Hin. apply Hn.
      destruct cur as [| | | | |c|];
        try (rewrite chain_locs_nonref in Hin; [by inversion Hin|];
             intros m Em; rewrite Em in Hg; apply get_prop_ref in Hg as (? & ? & ? & _); [discriminate|done]).
      rewrite (Hcons c x eq_refl eq_refl). by apply list_elem_of_further.
Qed.

(** Each container of the chain is what a prefix of the path resolves to. *)
Lemma chain_locs_walk (h : heap) (p : path) : forall v m,
  p <> [] -> m ∈ chain_locs inh h v p -> exists i, i < length p /\ walk inh h v (take i p) = Ok (VRef m).
Proof.
  induction p as [|s p IH]; intros v m Hne Hm; [done|].
  destruct v as [| | | | |c|]; try (by inversion Hm).
  destruct p as [|s2 p].
  - rewrite chain_locs_one in Hm. apply list_elem_of_singleton in Hm as ->. exists 0. split; [simpl; lia|done].
  - rewrite chain_locs_cons2, elem_of_cons in Hm. destruct Hm as [->|Hm].
    + exists 0. split; [simpl; lia|done].
    + destruct (get_prop inh h (VRef c) (key s)) as [x| |] eqn:Hg; try (by inversion Hm).
      destruct (IH x m ltac:(done) Hm) as (i & Hi & Hw).
      exists (S i). split; [simpl in *; lia|]. cbn [take]. by rewrite walk_cons, Hg.
Qed.

(** The containers of the chain from the copy, other than the copy
    itself, are what proper prefixes of the path resolve to in the
    document. *)
Lemma chain_locs_clone (h : heap) (d : val) (oc : obj) (s : seg) (p : path) (m : loc) :
  wf_heap h -> doc_val h d -> plain_key inh (key s) -> clone_of inh h d = Ok oc -> m < length h ->
  m ∈ chain_locs inh (h ++ [oc])%list (VRef (length h)) (s :: p) ->
  exists i, 0 < i /\ i < length (s :: p) /\ walk inh h d (take i (s :: p)) = Ok (VRef m).
Proof.
  intros Hh Hd Hk Hc Hm Hin.
  destruct (chain_locs_walk (h ++ [oc])%list (s :: p) (VRef (length h)) m ltac:(done) Hin) as ([|j] & Hj & Hw).
  - simpl in Hw. injection Hw as Hw. lia.
  - exists (S j). split_and!; [lia|done|]. cbn [take] in Hw |- *.
    rewrite (walk_step inh _ (length h) oc) in Hw by apply lookup_alloc.
    destruct (clone_ok inh inh_noref h d Hh Hd) as (oc' & Hc' & Hv). rewrite Hc in Hc'. injection Hc' as <-.
    rewrite (walk_ext inh inh_noref h oc Hh) in Hw by (by apply obj_get_wf).
    destruct (clone_get inh h d oc s Hd Hk Hc) as [Hu|Hs].
    + rewrite Hu, walk_nullish in Hw by done. by case_bool_decide.
    + change (s :: take j p) with ([s] ++ take j p)%list.
      rewrite (walk_app inh h [s] (take j p) d _ Hs). exact Hw.
Qed.

(** A path from a reference to a reference follows [points_to]. *)
Lemma walk_ref_reach (h : heap) (q : path) : forall v b,
  walk inh h v q = Ok (VRef b) ->
  (v = VRef b /\ q = []) \/ exists a, v = VRef a /\ clos_trans loc (points_to h) a b.
Proof.
  induction q as [|s q IH]; intros v b Hw.
  - injection Hw as ->. by left.
  - right. rewrite walk_cons in Hw. destruct (nullish v); [discriminate|].
    unfold mbind, res_bind in Hw.
    destruct (get_prop inh h v (key s)) as [x| |] eqn:Hg; try discriminate.
    destruct (IH x b Hw) as [[-> _]|(a & -> & Ht)].
    + apply get_prop_ref in Hg as (c & o & -> & Hc & Hin); [|done].
      exists c. split; [done|]. apply t_step. by exists o.
    + apply get_prop_ref in Hg as (c & o & -> & Hc & Hin); [|done].
      exists c. split; [done|]. apply t_trans with a; [apply t_step; by exists o|done].
Qed.

End Frame.

Section Untouched.

Variable inh : pkind -> string -> val.
Hypothesis inh_noref : forall k p l, inh k p <> VRef l.

Lemma setValueAtPath_unfold (h h' : heap) (d : val) (s : seg) (p : path) (v r : val) :
  setValueAtPath inh h d (Some (s :: p)) v = Ok (h', r) ->
  exists oc, clone_of inh h d = Ok oc /\
    set_loop inh (h ++ [oc])%list (VRef (length h)) (s :: p) v = Ok h' /\ r = VRef (length h).
Proof.
  intros H. unfold setValueAtPath in H. cbv beta iota in H. unfold mbind, res_bind in H.
  destruct (clone_of inh h d) as [oc| |] eqn:Hc; try discriminate.
  unfold alloc in H. cbv beta iota in H.
  destruct (set_loop inh (h ++ [oc])%list (VRef (length h)) (s :: p) v) as [h2| |] eqn:Hs;
    try discriminate.
  injection H as <- <-. by exists oc.
Qed.

(** X7: a write changes no object of the document except the objects and
    arrays that proper prefixes of the path resolve to (which it assigns
    in place): every other object of the heap is left as it was. *)
Theorem setValueAtPath_frame (h : heap) (d : val) (s : seg) (p : path) (v : val) (h' : heap) (r : val) :
  wf_heap h -> doc_val h d -> plain_key inh (key s) ->
  setValueAtPath inh h d (Some (s :: p)) v = Ok (h', r) ->
  forall l, l < length h ->
  (forall i, 0 < i -> i < length (s :: p) ->
     getValueAtPath inh h d (Some (take i (s :: p))) <> Ok (VRef l)) ->
  h' !! l = h !! l.
Proof.
  intros Hh Hd Hk H l Hl Hno.
  destruct (setValueAtPath_unfold h h' d s p v r H) as (oc & Hc & Hs & ->).
  destruct (set_loop_frame_all inh inh_noref v (s :: p) _ _ _ Hs) as [_ Hfr].
  rewrite Hfr; [by apply lookup_app_l|rewrite length_app; simpl; lia|].
  intros Hin. destruct (chain_locs_clone inh inh_noref h d oc s p l Hh Hd Hk Hc Hl Hin)
    as ([|i] & Hi0 & Hi & Hw); [lia|].
  apply (Hno (S i) Hi0 Hi). cbn [take]. rewrite getValueAtPath_walk. exact Hw.
Qed.

(** X8: in a heap where no object contains itself, writing at a non-empty
    path into an object or array returns a new object, and leaves the
    input's own outermost object as it was (only objects nested in it can
    change). *)
Theorem setValueAtPath_keeps_input_object (h : heap) (l : loc) (o : obj) (s : seg) (p : path)
  (v : val) (h' : heap) (r : val) :
  wf_heap h -> acyclic h -> h !! l = Some o -> plain_key inh (key s) ->
  setValueAtPath inh h (VRef l) (Some (s :: p)) v = Ok (h', r) ->
  r = VRef (length h) /\ l <> length h /\ h' !! l = Some o.
Proof.
  intros Hh Hac Hl Hk H.
  assert (Hll : l < length h) by (by eapply lookup_lt_Some).
  destruct (setValueAtPath_unfold h h' (VRef l) s p v r H) as (oc & Hc & Hs & ->).
  split_and!; [done|lia|].
  destruct (set_loop_frame_all inh inh_noref v (s :: p) _ _ _ Hs) as [_ Hfr].
  rewrite Hfr; [by apply lookup_app_l_Some|rewrite length_app; simpl; lia|].
  intros Hin. destruct (chain_locs_clone inh inh_noref h (VRef l) oc s p l Hh Hll Hk Hc Hll Hin)
    as ([|i] & Hi0 & Hi & Hw); [lia|].
  destruct (walk_ref_reach inh inh_noref h _ _ _ Hw) as [[_ E]|(a & [= <-] & Ht)]; [discriminate|].
  exact (Hac l Ht).
Qed.

(** X9: the copy made by a write is shallow. When the document is an
    object whose first path segment holds an object or array, the write
    goes into that shared nested container: the new document holds the
    same container under that key, and the original document, read at the
    path in the new heap, gives the written value too. *)
Theorem setValueAtPath_shares_nested (h : heap) (l m : loc) (ps : list (string * val))
  (s s2 : seg) (rest : path) (v : val) :
  wf_heap h -> acyclic h -> h !! l = Some (OObj ps) -> plain_path inh (s :: s2 :: rest) ->
  prefixes_ok inh h (VRef l) (s :: s2 :: rest) ->
  getValueAtPath inh h (VRef l) (Some [s]) = Ok (VRef m) ->
  exists h' r, setValueAtPath inh h (VRef l) (Some (s :: s2 :: rest)) v = Ok (h', r) /\
    getValueAtPath inh h' r (Some [s]) = Ok (VRef m) /\
    getValueAtPath inh h' (VRef l) (Some (s :: s2 :: rest)) = Ok v.
Proof.
  intros Hh Hac Ho Hpl Hpre Hm.
  assert (Hll : l < length h) by (by eapply lookup_lt_Some).
  destruct (setValueAtPath_spec inh inh_noref h (VRef l) _ v Hh Hac Hll Hpl Hpre)
    as (h' & r & Hs & Hg & _).
  exists h', r. split; [done|].
  destruct (setValueAtPath_unfold h h' _ s _ v r Hs) as (oc & Hc & Hset & ->).
  assert (Hcl : clone_of inh h (VRef l) = Ok (OObj ps)).
  { unfold clone_of, is_array_val, obj_spread. by rewrite Ho. }
  rewrite Hcl in Hc. injection Hc as <-.
  rewrite getValueAtPath_walk, (walk_step inh h l _ s [] Ho) in Hm. cbn [walk] in Hm.
  injection Hm as Hom.
  assert (Hpt : points_to h l m).
  { exists (OObj ps). split; [done|]. rewrite <- Hom.
    destruct (get_prop_ref inh inh_noref h (VRef l) (key s) m) as (c & o & [= <-] & Hc & Hin).
    - rewrite (get_prop_obj inh _ _ _ _ Ho). by rewrite Hom.
    - rewrite Ho in Hc. injection Hc as <-. by rewrite Hom. }
  assert (Hml : m < length h).
  { destruct Hpt as (o & Hlo & Hin). exact (Hh l o (VRef m) Hlo Hin). }
  assert (Hoc1 : (h ++ [OObj ps])%list !! length h = Some (OObj ps)) by apply lookup_alloc.
  erewrite set_loop_step_old in Hset; [|exact Hoc1|exact Hom].
  destruct (set_loop_frame_all inh inh_noref v (s2 :: rest) _ _ _ Hset) as [_ Hfr].
  assert (Hext : chain_locs inh (h ++ [OObj ps])%list (VRef m) (s2 :: rest) =
                 chain_locs inh h (VRef m) (s2 :: rest))
    by (by apply (chain_locs_ext inh inh_noref)).
  assert (Hn : h' !! length h = Some (OObj ps)).
  { rewrite Hfr; [done|rewrite length_app; simpl; lia|]. rewrite Hext. intros Hin.
    apply (chain_locs_bound inh inh_noref h Hh _ (VRef m) _ Hml) in Hin. lia. }
  assert (Hl' : h' !! l = Some (OObj ps)).
  { rewrite Hfr; [by apply lookup_app_l_Some|rewrite length_app; simpl; lia|]. rewrite Hext.
    intros Hin. destruct (chain_locs_walk inh h (s2 :: rest) (VRef m) l ltac:(done) Hin)
      as (i & _ & Hw).
    destruct (walk_ref_reach inh inh_noref h _ _ _ Hw) as [[[= ->] _]|(a & [= <-] & Ht)].
    - apply (Hac l). by apply t_step.
    - apply (Hac l). eapply t_trans; [apply t_step, Hpt|exact Ht]. }
  split.
  - rewrite getValueAtPath_walk, (walk_step inh h' _ _ s [] Hn). cbn [walk]. by rewrite Hom.
  - rewrite getValueAtPath_walk, (walk_step inh h' _ _ s _ Hl'), Hom.
    rewrite getValueAtPath_walk, (walk_step inh h' _ _ s _ Hn), Hom in Hg. exact Hg.
Qed.

End Untouched.

Lemma setValueAtPath_frame_witness :
  exists h' r,
    setValueAtPath js_inherited doc_nested_heap doc_nested (Some [SStr "a"; SNum 1; SStr "b"])
      (VBool false) = Ok (h', r) /\ h' !! 2 = doc_nested_heap !! 2.
Proof.
  destruct (setValueAtPath js_inherited doc_nested_heap doc_nested (Some [SStr "a"; SNum 1; SStr "b"])
              (VBool false)) as [[h' r]| |] eqn:E; [|vm_compute in E; discriminate..].
  exists h', r. split; [reflexivity|].
  apply (setValueAtPath_frame js_inherited js_inherited_noref doc_nested_heap doc_nested
           (SStr "a") [SNum 1; SStr "b"] (VBool false) h' r).
  - apply refs_backward_wf. vm_compute. reflexivity.
  - vm_compute. lia.
  - apply plain_keyb_sound. vm_compute. reflexivity.
  - exact E.
  - vm_compute. lia.
  - intros [|[|[|i]]] H0 Hi; simpl in Hi; try lia; vm_compute; discriminate.
Defined.

Lemma setValueAtPath_keeps_input_object_witness :
  exists h' r,
    setValueAtPath js_inherited doc_nested_heap (VRef 2) (Some [SStr "a"; SNum 1; SStr "b"])
      (VBool false) = Ok (h', r) /\
    r = VRef 3 /\ 2 <> 3 /\ h' !! 2 = Some (OObj [("a", VRef 1); ("c", VNull)]).
Proof.
  destruct (setValueAtPath js_inherited doc_nested_heap (VRef 2) (Some [SStr "a"; SNum 1; SStr "b"])
              (VBool false)) as [[h' r]| |] eqn:E; [|vm_compute in E; discriminate..].
  exists h', r. split; [reflexivity|].
  apply (setValueAtPath_keeps_input_object js_inherited js_inherited_noref doc_nested_heap 2
           (OObj [("a", VRef 1); ("c", VNull)]) (SStr "a") [SNum 1; SStr "b"] (VBool false) h' r).
  - apply refs_backward_wf. vm_compute. reflexivity.
  - apply refs_backward_acyclic. vm_compute. reflexivity.
  - vm_compute. reflexivity.
  - apply plain_keyb_sound. vm_compute. reflexivity.
  - exact E.
Defined.

Lemma setValueAtPath_shares_nested_witness :
  exists h' r,
    setValueAtPath js_inherited doc_nested_heap (VRef 2) (Some [SStr "a"; SNum 1; SStr "b"])
      (VBool false) = Ok (h', r) /\
    getValueAtPath js_inherited h' r (Some [SStr "a"]) = Ok (VRef 1) /\
    getValueAtPath js_inherited h' (VRef 2) (Some [SStr "a"; SNum 1; SStr "b"]) = Ok (VBool false).
Proof.
  apply (setValueAtPath_shares_nested js_inherited js_inherited_noref doc_nested_heap 2 1
           [("a", VRef 1); ("c", VNull)] (SStr "a") (SNum 1) [SStr "b"] (VBool false)).
  - apply refs_backward_wf. vm_compute. reflexivity.
  - apply refs_backward_acyclic. vm_compute. reflexivity.
  - vm_compute. reflexivity.
  - apply plain_path_of_b. vm_compute. reflexivity.
  - apply prefixes_okb_sound. vm_compute. reflexivity.
  - vm_compute. reflexivity.
Defined.

Section Grow.

Variable inh : pkind -> string -> val.

Lemma string_of_N_not_length (n : N) : String.eqb (string_of_N n) "length" = false.
Proof.
  apply String.eqb_neq. intros E. pose proof (canonical_index_string_of_N n) as Hn.
  rewrite E in Hn. vm_compute in Hn. discriminate.
Qed.

Lemma string_of_N_not_proto (n : N) : String.eqb (string_of_N n) "__proto__" = false.
Proof.
  apply String.eqb_neq. intros E. pose proof (canonical_index_string_of_N n) as Hn.
  rewrite E in Hn. vm_compute in Hn. discriminate.
Qed.

(** X10: writing at an index at or past the end of a top-level array (as
    [JSON.parse] makes it, index below 2^32 - 1) returns a copy of the
    array grown to that index: the slots between the old end and the index
    are holes, and the value is the last element. *)
Theorem setValueAtPath_array_past_end (h : heap) (l : loc) (es : list (option val)) (k : N) (v : val) :
  json_heap h -> h !! l = Some (OArr es []) -> length es <= N.to_nat k -> (k < 4294967295)%N ->
  setValueAtPath inh h (VRef l) (Some [SNum k]) v =
  Ok ((h ++ [OArr (es ++ repeat None (N.to_nat k - length es) ++ [Some v]) []])%list, VRef (length h)).
Proof.
  intros Hj Ho Hk Hlt. unfold setValueAtPath. cbv beta iota.
  rewrite (clone_json inh h l _ Hj Ho). unfold mbind, res_bind, alloc. cbv beta iota.
  cbn [set_loop key]. unfold set_prop. rewrite lookup_alloc.
  rewrite string_of_N_not_length, string_of_N_not_proto, andb_false_r. cbn [andb negb].
  unfold set_own, array_index. rewrite canonical_index_string_of_N.
  rewrite (proj2 (N.ltb_lt _ _) Hlt). unfold put_elem.
  rewrite (proj2 (Nat.ltb_ge _ _) Hk).
  rewrite insert_app_r_alt, Nat.sub_diag by lia. reflexivity.
Qed.

End Grow.

Lemma setValueAtPath_array_past_end_witness :
  setValueAtPath js_inherited [OArr [Some (VNum 1)] []] (VRef 0) (Some [SNum 3]) (VBool true) =
  Ok ([OArr [Some (VNum 1)] []; OArr [Some (VNum 1); None; None; Some (VBool true)] []], VRef 1) /\
  stringify_val [OArr [Some (VNum 1)] []; OArr [Some (VNum 1); None; None; Some (VBool true)] []] (VRef 1)
  = Ok (Some ("[" ++ nl ++ "  1," ++ nl ++ "  null," ++ nl ++ "  null," ++ nl ++ "  true" ++ nl ++ "]")).
Proof.
  split.
  - apply (setValueAtPath_array_past_end js_inherited [OArr [Some (VNum 1)] []] 0 [Some (VNum 1)] 3).
    + apply json_heapb_sound. vm_compute. reflexivity.
    + reflexivity.
    + simpl. lia.
    + vm_compute. reflexivity.
  - vm_compute. reflexivity.
Defined.

Section RowsObject.

Lemma assoc_none_not_in {A} (k : string) (ps : list (string * A)) :
  assoc k ps = None <-> k ∉ map fst ps.
Proof.
  induction ps as [|[k' v'] ps IH]; simpl.
  - split; [intros _; by inversion 1|done].
  - destruct (String.eqb_spec k k') as [->|Hne].
    + split; [discriminate|]. intros H. exfalso. apply H. constructor.
    + rewrite IH. split.
      * intros H Hin. apply elem_of_cons in Hin as [Hin|Hin]; [done|by apply H].
      * intros H Hin. apply H. by apply list_elem_of_further.
Qed.

Lemma map_fst_replace_prop {A} (k : string) (v : A) (ps : list (string * A)) :
  map fst (replace_prop k v ps) = map fst ps.
Proof.
  induction ps as [|[k' v'] ps IH]; simpl; [done|].
  destruct (String.eqb k k'); simpl; by rewrite ?IH.
Qed.

Lemma map_fst_add_prop {A} (k : string) (v : A) (ps : list (string * A)) :
  map fst (add_prop k v ps) ≡ₚ k :: map fst ps.
Proof.
  induction ps as [|[k' v'] ps IH]; simpl; [done|].
  destruct (goes_before k k'); simpl; [done|]. rewrite IH. constructor.
Qed.

Lemma put_prop_nodup {A} (k : string) (v : A) (ps : list (string * A)) :
  NoDup (map fst ps) -> NoDup (map fst (put_prop k v ps)).
Proof.
  intros Hnd. unfold put_prop. destruct (assoc k ps) eqn:E.
  - by rewrite map_fst_replace_prop.
  - rewrite map_fst_add_prop. constructor; [|done]. by apply assoc_none_not_in.
Qed.

Lemma assoc_replace_prop_ne {A} (k k' : string) (v : A) (ps : list (string * A)) :
  k' <> k -> assoc k' (replace_prop k v ps) = assoc k' ps.
Proof.
  intros Hne. induction ps as [|[k2 v2] ps IH]; simpl; [done|].
  destruct (String.eqb_spec k k2) as [<-|]; simpl.
  - by rewrite (proj2 (String.eqb_neq _ _) Hne).
  - by rewrite IH.
Qed.

Lemma assoc_add_prop_ne {A} (k k' : string) (v : A) (ps : list (string * A)) :
  k' <> k -> assoc k' (add_prop k v ps) = assoc k' ps.
Proof.
  intros Hne. induction ps as [|[k2 v2] ps IH]; simpl.
  - by rewrite (proj2 (String.eqb_neq _ _) Hne).
  - destruct (goes_before k k2); simpl.
    + by rewrite (proj2 (String.eqb_neq _ _) Hne).
    + by rewrite IH.
Qed.

Lemma assoc_put_prop_ne {A} (k k' : string) (v : A) (ps : list (string * A)) :
  k' <> k -> assoc k' (put_prop k v ps) = assoc k' ps.
Proof.
  intros Hne. unfold put_prop. destruct (assoc k ps).
  - by apply assoc_replace_prop_ne.
  - by apply assoc_add_prop_ne.
Qed.

Lemma assign_key_other (st : nobj) (k k' : string) (v : rval) :
  k' <> k -> assoc k' (fst (assign_key st k v)) = assoc k' (fst st).
Proof.
  intros Hne. destruct st as [o b]. unfold assign_key.
  destruct (b && String.eqb k "__proto__"); [by destruct v|]. by apply assoc_put_prop_ne.
Qed.

(** The row is kept by the [forEach] and assigns key [k]. *)
Lemma row_step_sets (o : nobj) (r : row) (k : string) :
  rtype r <> "array" -> rtype r <> "object" -> rkey r = Some k -> k <> "" ->
  k <> "__proto__" -> assoc k (fst (row_step o r)) = Some (rvalue r).
Proof.
  intros Ha Hb Hk Hne Hp. unfold row_step.
  rewrite (proj2 (String.eqb_neq _ _) Ha), (proj2 (String.eqb_neq _ _) Hb), Hk. simpl.
  rewrite (proj2 (String.eqb_neq _ _) Hne). destruct o as [o b]. cbn [negb assign_key].
  rewrite (proj2 (String.eqb_neq _ _) Hp), andb_false_r. apply assoc_put_prop.
Qed.

Lemma row_step_other (o : nobj) (r : row) (k : string) :
  (rtype r <> "array" -> rtype r <> "object" -> rkey r <> Some k) ->
  assoc k (fst (row_step o r)) = assoc k (fst o).
Proof.
  intros H. unfold row_step.
  destruct (String.eqb_spec (rtype r) "array"); [done|].
  destruct (String.eqb_spec (rtype r) "object"); [done|]. simpl.
  destruct (rkey r) as [k'|] eqn:Hk; [|done].
  cbn [key_truthy]. destruct (negb (String.eqb k' "")); [|done]. apply assign_key_other. intros ->. by apply H.
Qed.

Lemma row_step_nodup (o : nobj) (r : row) :
  NoDup (map fst (fst o)) -> NoDup (map fst (fst (row_step o r))).
Proof.
  intros Hnd. destruct o as [o b]. unfold row_step, assign_key.
  repeat case_match; simplify_eq/=; try done. by apply put_prop_nodup.
Qed.

Lemma fold_row_step_nodup (rows : list row) : forall o,
  NoDup (map fst (fst o)) -> NoDup (map fst (fst (fold_left row_step rows o))).
Proof.
  induction rows as [|r rows IH]; intros o Hnd; simpl; [done|]. by apply IH, row_step_nodup.
Qed.

Lemma fold_row_step_other (rows : list row) (k : string) : forall o,
  (forall r, r ∈ rows -> rtype r <> "array" -> rtype r <> "object" -> rkey r <> Some k) ->
  assoc k (fst (fold_left row_step rows o)) = assoc k (fst o).
Proof.
  induction rows as [|r rows IH]; intros o H; simpl; [done|].
  rewrite IH.
  - apply row_step_other. apply H. constructor.
  - intros r' Hr'. apply H. by apply list_elem_of_further.
Qed.

Lemma fold_row_step_empty (rows : list row) : forall o,
  assoc "" (fst o) = None -> assoc "" (fst (fold_left row_step rows o)) = None.
Proof.
  induction rows as [|r rows IH]; intros o Ho; simpl; [done|]. apply IH.
  unfold row_step. destruct (_ && _); [|done]. destruct (rkey r) as [k'|]; [|done].
  cbn [key_truthy]. destruct (String.eqb_spec k' ""); [done|]. cbn [negb].
  rewrite assign_key_other; [done|]. congruence.
Qed.

(** While no kept row assigns [null] to ["__proto__"], the object keeps its
    prototype and has no own property ["__proto__"]. *)
Lemma fold_row_step_proto (rows : list row) : forall o,
  (forall r, r ∈ rows -> rtype r <> "array" -> rtype r <> "object" ->
     rkey r = Some "__proto__" -> rvalue r <> RNull) ->
  snd o = true -> assoc "__proto__" (fst o) = None ->
  assoc "__proto__" (fst (fold_left row_step rows o)) = None.
Proof.
  induction rows as [|r rows IH]; intros o H Hb Ho; simpl; [done|].
  assert (Hr : forall r', r' ∈ rows -> rtype r' <> "array" -> rtype r' <> "object" ->
            rkey r' = Some "__proto__" -> rvalue r' <> RNull)
    by (intros r' Hr'; apply H; by apply list_elem_of_further).
  destruct o as [o b]; simpl in Hb, Ho; subst b.
  unfold row_step.
  destruct (String.eqb_spec (rtype r) "array"); [by apply IH|].
  destruct (String.eqb_spec (rtype r) "object"); [by apply IH|]. cbn [negb andb].
  destruct (rkey r) as [k'|] eqn:Hk; [|by apply IH].
  cbn [key_truthy]. destruct (negb (String.eqb k' "")); [|by apply IH].
  unfold assign_key. cbn [andb].
  destruct (String.eqb_spec k' "__proto__") as [->|Hne].
  - destruct (rvalue r) eqn:Hv.
    + exfalso. apply (H r); [constructor|done|done|done|done].
    + by apply IH.
    + by apply IH.
    + by apply IH.
  - apply IH; [done|done|]. simpl. by rewrite assoc_put_prop_ne by congruence.
Qed.

(** X11: the object [normalizeNodeData] builds from the rows has each key
    once; a key [k] other than ["__proto__"] holds the value of the last row
    with key [k] that is not an "array" or "object" placeholder; key [k] is
    absent when there is no such row (or [k] is empty); and ["__proto__"]
    is absent unless such a row with key ["__proto__"] has the value
    [null]. *)
Theorem rows_object_keys (rows : list row) (k : string) :
  NoDup (map fst (rows_object rows)) /\
  (forall pre r post, rows = (pre ++ r :: post)%list ->
     rtype r <> "array" -> rtype r <> "object" -> rkey r = Some k -> k <> "" ->
     k <> "__proto__" ->
     (forall r', r' ∈ post -> rtype r' <> "array" -> rtype r' <> "object" -> rkey r' <> Some k) ->
     assoc k (rows_object rows) = Some (rvalue r)) /\
  ((forall r, r ∈ rows -> rtype r <> "array" -> rtype r <> "object" -> rkey r = Some k -> k = "") ->
     assoc k (rows_object rows) = None) /\
  ((forall r, r ∈ rows -> rtype r <> "array" -> rtype r <> "object" ->
      rkey r = Some "__proto__" -> rvalue r <> RNull) ->
     assoc "__proto__" (rows_object rows) = None).
Proof.
  unfold rows_object. split_and!.
  - apply fold_row_step_nodup. constructor.
  - intros pre r post -> Ha Hb Hk Hne Hp Hpost.
    rewrite fold_left_app. cbn [fold_left].
    rewrite fold_row_step_other by done. by apply row_step_sets.
  - intros H. destruct (String.eqb_spec k "") as [->|Hne].
    + by apply fold_row_step_empty.
    + rewrite fold_row_step_other; [done|]. intros r Hr Ha Hb Hk. by apply Hne, (H r).
  - intros H. by apply fold_row_step_proto.
Qed.

End RowsObject.

Lemma rows_object_keys_witness :
  [row_b1; row_a1] = ([row_b1] ++ row_a1 :: [])%list /\
  assoc "a" (rows_object [row_b1; row_a1]) = Some (RNum 1).
Proof.
  split; [reflexivity|].
  apply (proj1 (proj2 (rows_object_keys [row_b1; row_a1] "a")) [row_b1] row_a1 []);
    [reflexivity|discriminate|discriminate|reflexivity|discriminate|discriminate|].
  intros r' Hr'. by inversion Hr'.
Defined.

Section SaveEffects.

Variable inh : pkind -> string -> val.
Variable json_parse : string -> string + jtree.
Variable graph_nodes : string -> list gnode.

Lemma find_path_some (l : list gnode) (p : path) (found : gnode) :
  List.find (fun n => bool_decide (npath n = Some p)) l = Some found ->
  npath found = Some p /\ found ∈ l.
Proof.
  intros Hf. apply List.find_some in Hf as [Hin Hb].
  apply bool_decide_eq_true in Hb. split; [done|]. by apply list_elem_of_In.
Qed.

(** X12: the Save button never changes the edit buffer or the text
    [getJson()] returns. It either records an error and writes nothing
    (the file contents and the store calls are as before, the editing
    flag too), or it clears the error, leaves editing, sets the file
    contents to a text [t] and calls the stores with [setContents(t)],
    [setGraph(t)] and, possibly, the selection of a node of the rebuilt
    graph whose path is the edited node's path. *)
Theorem handleSave_effects (w w' : world) (n : option gnode) :
  handleSave inh json_parse graph_nodes w n = Ok w' ->
  json_text w' = json_text w /\ editValue w' = editValue w /\
  ((exists msg, error w' = Some msg /\ editing w' = editing w /\
      file_contents w' = file_contents w /\ log w' = log w) \/
   (exists text, error w' = None /\ editing w' = false /\ file_contents w' = text /\
      (log w' = (log w ++ [EvSetContents text; EvSetGraph text])%list \/
       exists found, npath found = node_path n /\ found ∈ graph_nodes text /\
         log w' = (log w ++ [EvSetContents text; EvSetGraph text; EvSelect found])%list))).
Proof.
  unfold handleSave. intros H.
  destruct (json_parse (buffer_text (editValue w))) as [msg|tn].
  { injection H as <-. split_and!; [done|done|]. left. by exists msg. }
  destruct (alloc_tree [] tn) as [h1 parsedNew].
  destruct (json_parse (json_text w)) as [msg|tw].
  { injection H as <-. split_and!; [done|done|]. left. by exists msg. }
  destruct (alloc_tree h1 tw) as [h2 whole].
  destruct (setValueAtPath inh h2 whole (node_path n) parsedNew) as [[h3 updated]|msg|];
    [|injection H as <-; split_and!; [done|done|]; left; by exists msg|discriminate].
  destruct (stringify_val h3 updated) as [[text|]| |]; try discriminate.
  destruct (node_path n) as [p|] eqn:Hp.
  - destruct (List.find _ (graph_nodes text)) as [found|] eqn:Hf;
      injection H as <-; split_and!; try done; right; exists text; split_and!; try done.
    + right. exists found. destruct (find_path_some _ _ _ Hf) as [-> Hin]. split_and!; [done|done|].
      simpl. by rewrite <- !app_assoc.
    + left. simpl. by rewrite <- app_assoc.
  - injection H as <-. split_and!; try done. right. exists text. split_and!; try done.
    left. simpl. by rewrite <- app_assoc.
Qed.

End SaveEffects.

Lemma handleSave_effects_witness :
  exists w', handleSave js_inherited demo_parse (fun _ => [demo_node]) (demo_world true (Some "{}"))
               (Some demo_node) = Ok w' /\
    json_text w' = "{}" /\ editValue w' = Some "{}".
Proof.
  destruct (handleSave js_inherited demo_parse (fun _ => [demo_node]) (demo_world true (Some "{}"))
              (Some demo_node)) as [w'| |] eqn:E; [|vm_compute in E; discriminate..].
  exists w'. split; [reflexivity|].
  destruct (handleSave_effects js_inherited demo_parse (fun _ => [demo_node]) _ w' _ E)
    as (Hj & Hv & _).
  split; [exact Hj|exact Hv].
Defined.

Section Reads.

Variable inh : pkind -> string -> val.

(** A step of the loop from a value that is not [null] or [undefined]. *)
Lemma getValueAtPath_step (h : heap) (d v : val) (q : path) (s : seg) (rest : path) :
  walk inh h d q = Ok v -> nullish v = false ->
  getValueAtPath inh h d (Some (q ++ s :: rest)%list) = (x ← get_prop inh h v (key s); walk inh h x rest).
Proof.
  intros Hq Hn. rewrite getValueAtPath_some, (walk_app _ _ _ _ _ _ Hq). simpl. by rewrite Hn.
Qed.

Lemma getValueAtPath_last (h : heap) (d v : val) (q : path) (s : seg) (x : val) :
  walk inh h d q = Ok v -> nullish v = false -> get_prop inh h v (key s) = Ok x ->
  getValueAtPath inh h d (Some (q ++ [s])%list) = Ok x.
Proof. intros Hq Hn Hg. rewrite (getValueAtPath_step _ _ _ _ _ [] Hq Hn), Hg. reflexivity. Qed.

Lemma getValueAtPath_undef_at (h : heap) (d v : val) (q : path) (s : seg) (rest : path) :
  walk inh h d q = Ok v -> nullish v = false -> get_prop inh h v (key s) = Ok VUndef ->
  getValueAtPath inh h d (Some (q ++ s :: rest)%list) = Ok VUndef.
Proof.
  intros Hq Hn Hg. rewrite (getValueAtPath_step _ _ _ _ _ rest Hq Hn), Hg.
  unfold mbind, res_bind. rewrite walk_nullish by done. by case_bool_decide.
Qed.

(** C6 (amended): [getValueAtPath] never throws; meeting [null] or
    [undefined] before a segment gives [undefined] (absent), which differs
    from a present [null]; otherwise each step is the property read
    [cur[seg]]: an own property is read (a present [null] included), a
    segment that names neither an own property nor an inherited member gives
    absent on objects, arrays, booleans, numbers and strings alike (for a
    string: nor ["length"] nor the index of one of its characters), and a
    number segment [n] reads the same property as the key ["n"]; an
    inherited member, ["length"] on an array or a string and a string's
    indices are readable, and so is ["map"] on an array. *)
Theorem getValueAtPath_reads (h : heap) (d : val) (p : option path) :
  (forall msg, getValueAtPath inh h d p <> Throw msg) /\
  (forall q s rest v, p = Some (q ++ s :: rest)%list -> walk inh h d q = Ok v ->
     nullish v = true -> getValueAtPath inh h d p = Ok VUndef) /\
  (forall q s rest v, p = Some (q ++ s :: rest)%list -> walk inh h d q = Ok v ->
     nullish v = false ->
     getValueAtPath inh h d p = (x ← get_prop inh h v (key s); walk inh h x rest)) /\
  (forall q s rest l o x, p = Some (q ++ s :: rest)%list -> walk inh h d q = Ok (VRef l) ->
     h !! l = Some o -> own (key s) o = Some x -> getValueAtPath inh h d p = walk inh h x rest) /\
  (forall q s l o, p = Some (q ++ [s])%list -> walk inh h d q = Ok (VRef l) ->
     h !! l = Some o -> own (key s) o = Some VNull -> getValueAtPath inh h d p = Ok VNull) /\
  (forall q s rest l o, p = Some (q ++ s :: rest)%list -> walk inh h d q = Ok (VRef l) ->
     h !! l = Some o -> own (key s) o = None -> (is_arr o = true -> key s <> "length") ->
     inh (if is_arr o then PArray else PObject) (key s) = VUndef ->
     getValueAtPath inh h d p = Ok VUndef) /\
  (forall q s rest b, p = Some (q ++ s :: rest)%list -> walk inh h d q = Ok (VBool b) ->
     inh PBoolean (key s) = VUndef -> getValueAtPath inh h d p = Ok VUndef) /\
  (forall q s rest z, p = Some (q ++ s :: rest)%list -> walk inh h d q = Ok (VNum z) ->
     inh PNumber (key s) = VUndef -> getValueAtPath inh h d p = Ok VUndef) /\
  (forall q s rest str, p = Some (q ++ s :: rest)%list -> walk inh h d q = Ok (VStr str) ->
     key s <> "length" ->
     (forall n, canonical_index (key s) = Some n -> String.get (N.to_nat n) str = None) ->
     inh PString (key s) = VUndef -> getValueAtPath inh h d p = Ok VUndef) /\
  (forall q rest n, getValueAtPath inh h d (Some (q ++ SNum n :: rest)%list) =
                    getValueAtPath inh h d (Some (q ++ SStr (string_of_N n) :: rest)%list)) /\
  (forall q s l o, walk inh h d q = Ok (VRef l) -> h !! l = Some o -> own (key s) o = None ->
     (is_arr o = true -> key s <> "length") ->
     getValueAtPath inh h d (Some (q ++ [s])%list) = Ok (inh (if is_arr o then PArray else PObject) (key s))) /\
  (forall q s b, walk inh h d q = Ok (VBool b) ->
     getValueAtPath inh h d (Some (q ++ [s])%list) = Ok (inh PBoolean (key s))) /\
  (forall q s z, walk inh h d q = Ok (VNum z) ->
     getValueAtPath inh h d (Some (q ++ [s])%list) = Ok (inh PNumber (key s))) /\
  (forall q l es nm, walk inh h d q = Ok (VRef l) -> h !! l = Some (OArr es nm) ->
     assoc "length" nm = None ->
     getValueAtPath inh h d (Some (q ++ [SStr "length"])%list) = Ok (VNum (Z.of_nat (length es)))) /\
  (forall q str, walk inh h d q = Ok (VStr str) ->
     getValueAtPath inh h d (Some (q ++ [SStr "length"])%list) = Ok (VNum (Z.of_nat (String.length str)))) /\
  (forall q str i c, walk inh h d q = Ok (VStr str) -> String.get i str = Some c ->
     getValueAtPath inh h d (Some (q ++ [SNum (N.of_nat i)])%list) = Ok (VStr (String c EmptyString))) /\
  getValueAtPath js_inherited [OArr [] []] (VRef 0) (Some [SStr "map"]) = Ok (VHost 0).
Proof.
  split_and!.
  - intros msg. destruct p as [[|s p]|]; [discriminate| |discriminate].
    exact (walk_no_throw inh h (s :: p) d msg).
  - intros q s rest v -> Hq Hn. rewrite getValueAtPath_some, (walk_app _ _ _ _ _ _ Hq).
    rewrite walk_nullish by done. by rewrite bool_decide_false.
  - intros q s rest v -> Hq Hn. by apply getValueAtPath_step.
  - intros q s rest l o x -> Hq Hl Ho.
    rewrite (getValueAtPath_step _ _ _ _ _ rest Hq) by done. simpl.
    rewrite Hl. unfold obj_get. by rewrite Ho.
  - intros q s l o -> Hq Hl Ho. apply (getValueAtPath_last _ _ _ _ _ _ Hq); [done|].
    simpl. rewrite Hl. unfold obj_get. by rewrite Ho.
  - intros q s rest l o -> Hq Hl Ho Hlen Hinh. apply (getValueAtPath_undef_at _ _ _ _ _ _ Hq); [done|].
    simpl. rewrite Hl. unfold obj_get. rewrite Ho.
    destruct o; simpl in Hinh; [|by rewrite Hinh].
    by rewrite (proj2 (String.eqb_neq _ _) (Hlen eq_refl)), Hinh.
  - intros q s rest b -> Hq Hinh. apply (getValueAtPath_undef_at _ _ _ _ _ _ Hq); [done|].
    simpl. by rewrite Hinh.
  - intros q s rest z -> Hq Hinh. apply (getValueAtPath_undef_at _ _ _ _ _ _ Hq); [done|].
    simpl. by rewrite Hinh.
  - intros q s rest str -> Hq Hlen Hidx Hinh. apply (getValueAtPath_undef_at _ _ _ _ _ _ Hq); [done|].
    simpl. rewrite (proj2 (String.eqb_neq _ _) Hlen).
    destruct (canonical_index (key s)) as [n|] eqn:Hc; [|by rewrite Hinh].
    by rewrite (Hidx n eq_refl), Hinh.
  - intros q rest n. rewrite !getValueAtPath_some. clear p. revert d.
    induction q as [|s q IH]; intros d; [reflexivity|].
    simpl. destruct (nullish d); [reflexivity|]. unfold mbind, res_bind.
    destruct (get_prop inh h d (key s)); [apply IH|reflexivity|reflexivity].
  - intros q s l o Hq Hl Ho Hlen. apply (getValueAtPath_last _ _ _ _ _ _ Hq); [done|].
    simpl. rewrite Hl. unfold obj_get. rewrite Ho.
    destruct o; [|done]. by rewrite (proj2 (String.eqb_neq _ _) (Hlen eq_refl)).
  - intros q s b Hq. by apply (getValueAtPath_last _ _ _ _ _ _ Hq).
  - intros q s z Hq. by apply (getValueAtPath_last _ _ _ _ _ _ Hq).
  - intros q l es nm Hq Hl Hnm. apply (getValueAtPath_last _ _ _ _ _ _ Hq); [done|].
    simpl. rewrite Hl. unfold obj_get, own. simpl. by rewrite Hnm.
  - intros q str Hq. by apply (getValueAtPath_last _ _ _ _ _ _ Hq).
  - intros q str i c Hq Hc. apply (getValueAtPath_last _ _ _ _ _ _ Hq); [done|].
    simpl. rewrite string_of_N_not_length, canonical_index_string_of_N, Nat2N.id, Hc.
    reflexivity.
  - vm_compute. reflexivity.
Qed.

End Reads.

Lemma getValueAtPath_reads_witness :
  getValueAtPath js_inherited [OObj [("a", VNum 5)]] (VRef 0) (Some [SStr "a"; SStr "b"]) = Ok VUndef.
Proof.
  refine (proj1 (proj2 (proj2 (proj2 (proj2 (proj2 (proj2 (proj2
            (getValueAtPath_reads js_inherited [OObj [("a", VNum 5)]] (VRef 0)
               (Some [SStr "a"; SStr "b"]))))))))) [SStr "a"] (SStr "b") [] 5%Z _ _ _).
  - reflexivity.
  - reflexivity.
  - vm_compute. reflexivity.
Defined.

(* ------------------------------------------------------------------ *)
(** ** Successful writes *)

Section Success.

Variable inh : pkind -> string -> val.
Hypothesis inh_noref : forall k p l, inh k p <> VRef l.

Lemma get_prop_nonref (h : heap) (v x : val) (k : string) :
  (forall l, v <> VRef l) -> get_prop inh h v k = Ok x -> forall l, x <> VRef l.
Proof.
  intros Hv Hg l ->. apply (get_prop_ref inh inh_noref) in Hg as (c & o & -> & _). by apply (Hv c).
Qed.

Lemma set_prop_nonref (h h' : heap) (v : val) (k : string) (x : val) :
  (forall l, v <> VRef l) -> set_prop h v k x <> Ok h'.
Proof. intros Hv E. apply set_prop_ok in E as (c & o & -> & _). by apply (Hv c). Qed.

(** From a value that is not an object of the heap, the loop never
    returns a heap: it throws, or assigns into a built-in object. *)
Lemma set_loop_nonref (v : val) (p : path) : forall h x h',
  p <> [] -> (forall l, x <> VRef l) -> set_loop inh h x p v <> Ok h'.
Proof.
  induction p as [|s p IH]; intros h x h' Hne Hx E; [done|].
  destruct p as [|s2 p].
  - exact (set_prop_nonref h h' x (key s) v Hx E).
  - rewrite set_loop_cons2 in E. unfold mbind, res_bind in E.
    destruct (get_prop inh h x (key s)) as [y| |] eqn:Hy; try discriminate.
    destruct (is_undef y).
    + cbn [alloc] in E.
      destruct (set_prop (h ++ [empty_for s2])%list x (key s) (VRef (length h))) as [h1| |] eqn:Hs;
        try discriminate.
      exact (set_prop_nonref _ _ _ _ _ Hx Hs).
    + rewrite Hy in E. exact (IH h y h' ltac:(done) (get_prop_nonref h x y (key s) Hx Hy) E).
Qed.

(** A successful run of the loop from an object of the heap whose chain of
    containers has no repetition: the path then reads [v] from it, every
    existing object keeps its kind, and each prefix that read nothing
    before now reads a container the loop created, an array exactly when
    the next segment is a number. *)
Lemma set_loop_ok (v : val) (p : path) : forall h c h',
  wf_heap h -> c < length h -> p <> [] -> NoDup (chain_locs inh h (VRef c) p) ->
  set_loop inh h (VRef c) p v = Ok h' ->
  walk inh h' (VRef c) p = Ok v /\
  (forall l o, h !! l = Some o -> exists o', h' !! l = Some o' /\ is_arr o' = is_arr o) /\
  (forall j, j + 1 < length p -> walk inh h (VRef c) (take (j + 1) p) = Ok VUndef ->
     exists l o, walk inh h' (VRef c) (take (j + 1) p) = Ok (VRef l) /\ length h <= l /\
                 h' !! l = Some o /\ is_arr o = seg_is_num (p !! (j + 1))).
Proof.
  induction p as [|s rest IH]; intros h c h' Hh Hc Hne Hnd E; [done|].
  destruct (lookup_lt_is_Some_2 h c Hc) as [o Ho].
  assert (Hg : get_prop inh h (VRef c) (key s) = Ok (obj_get inh o (key s))) by (by apply get_prop_obj).
  destruct rest as [|s2 rest].
  - (* the last segment: [cur[seg] = value] *)
    cbn [set_loop] in E. apply set_prop_ok in E as (c' & o' & [= <-] & Ho' & ->).
    rewrite Ho in Ho'. injection Ho' as <-.
    split_and!.
    + rewrite walk_cons. simpl nullish. cbv iota.
      rewrite (get_prop_obj inh _ c (set_own (key s) v o)) by (by apply list_lookup_insert_eq).
      unfold mbind, res_bind. rewrite (obj_get_own inh _ _ v (own_set_own _ _ _)). reflexivity.
    + by apply lookup_set_own_arr.
    + simpl. lia.
  - rewrite set_loop_cons2, Hg in E. unfold mbind, res_bind in E.
    destruct (obj_get inh o (key s)) as [| | | | |d|] eqn:Hx.
    2-5,7: exfalso; cbn [is_undef] in E; rewrite Hg in E; cbv beta iota in E;
      refine (set_loop_nonref v _ _ _ _ _ _ E); [done|intros ?; discriminate].
    + (* [cur[seg]] is missing: a fresh container *)
      cbn [is_undef alloc] in E.
      destruct (set_prop (h ++ [empty_for s2])%list (VRef c) (key s) (VRef (length h))) as [h2| |] eqn:Hs;
        try discriminate.
      apply set_prop_ok in Hs as (c' & o' & [= <-] & Ho' & Eh2).
      rewrite (lookup_app_l_Some _ _ _ _ Ho) in Ho'. injection Ho' as <-.
      assert (Ho2 : h2 !! c = Some (set_own (key s) (VRef (length h)) o)).
      { subst h2. apply list_lookup_insert_eq. rewrite length_app. simpl. lia. }
      assert (Hf2 : h2 !! length h = Some (empty_for s2)).
      { subst h2. rewrite list_lookup_insert_ne by lia. apply lookup_alloc. }
      assert (Hlen2 : length h2 = S (length h)) by (subst; rewrite length_insert, length_app; simpl; lia).
      rewrite (get_prop_obj inh _ _ _ _ Ho2), (obj_get_own inh _ _ _ (own_set_own _ _ _)) in E.
      cbv beta iota in E.
      assert (Hwf2 : wf_heap h2).
      { subst h2. apply wf_heap_set_own; [|by apply lookup_app_l_Some|simpl; rewrite length_app; simpl; lia].
        apply wf_heap_app; [done|]. intros x Hv. destruct s2; simpl in Hv; inversion Hv. }
      assert (Hnr : forall k l, obj_get inh (empty_for s2) k <> VRef l).
      { intros k l El. apply (obj_get_ref inh inh_noref) in El. destruct s2; simpl in El; inversion El. }
      assert (Hlocs2 : chain_locs inh h2 (VRef (length h)) (s2 :: rest) = [length h]).
      { destruct rest as [|s3 rest]; [done|].
        rewrite chain_locs_cons2, (get_prop_obj inh _ _ _ _ Hf2), chain_locs_nonref; [done|apply Hnr]. }
      destruct (IH h2 (length h) h' Hwf2 ltac:(lia) ltac:(done)
                  ltac:(rewrite Hlocs2; apply NoDup_singleton) E) as (Hwalk & Harr & Hnum).
      destruct (set_loop_frame_all inh inh_noref v (s2 :: rest) h2 _ h' E) as [_ Hfr].
      rewrite Hlocs2 in Hfr.
      assert (Hc' : h' !! c = h2 !! c).
      { apply Hfr; [lia|]. intros Hin%list_elem_of_singleton. lia. }
      assert (Hwc : forall q, walk inh h' (VRef c) (s :: q) = walk inh h' (VRef (length h)) q).
      { intros q. rewrite (walk_step inh h' c _ s q (eq_trans Hc' Ho2)).
        by rewrite (obj_get_own inh _ _ _ (own_set_own _ _ _)). }
      split_and!.
      * rewrite Hwc. exact Hwalk.
      * intros l o0 Hl0.
        destruct (lookup_set_own_arr (h ++ [empty_for s2])%list c o (key s) (VRef (length h))
                    (lookup_app_l_Some _ _ _ _ Ho) l o0 (lookup_app_l_Some _ _ _ _ Hl0)) as (o2 & Hl2 & Ha2).
        rewrite <- Eh2 in Hl2. destruct (Harr l o2 Hl2) as (o' & Hl' & Ha').
        exists o'. split; [done|congruence].
      * intros j Hj Hw0. destruct j as [|j].
        -- destruct (Harr _ _ Hf2) as (o' & Hl' & Ha'). exists (length h), o'. split_and!.
           ++ simpl take. rewrite Hwc. reflexivity.
           ++ lia.
           ++ exact Hl'.
           ++ rewrite Ha'. by destruct s2.
        -- (* the fresh container reads nothing at the next segment, or the loop
              would have gone on from a value that is not an object *)
           assert (He : obj_get inh (empty_for s2) (key s2) = VUndef).
           { destruct rest as [|s3 rest]; [simpl in Hj; lia|].
             rewrite set_loop_cons2, (get_prop_obj inh _ _ _ _ Hf2) in E. unfold mbind, res_bind in E.
             destruct (obj_get inh (empty_for s2) (key s2)) as [| | | | |d'|] eqn:Hy; [done| | | | | |].
             5: exfalso; exact (Hnr _ d' Hy).
             all: exfalso; cbn [is_undef] in E; rewrite (get_prop_obj inh _ _ _ _ Hf2), Hy in E;
               cbv beta iota in E;
               refine (set_loop_nonref v _ _ _ _ _ _ E); [done|intros ?; discriminate]. }
           destruct (Hnum j) as (l & o' & Hwl & Hle & Hl' & Ha').
           { simpl in Hj |- *. lia. }
           { rewrite Nat.add_1_r. simpl take. rewrite (walk_step inh h2 _ _ _ _ Hf2), He.
             rewrite walk_nullish by done. by case_bool_decide. }
           exists l, o'. split_and!; [|lia|exact Hl'|exact Ha'].
           simpl take. rewrite Hwc. exact Hwl.
    + (* [cur[seg]] is a container: the loop goes on in it *)
      cbn [is_undef] in E. rewrite Hg in E. cbv beta iota in E.
      assert (Hd : d < length h) by exact (Hh c o (VRef d) Ho (obj_get_ref inh inh_noref o (key s) d Hx)).
      rewrite chain_locs_cons2, Hg in Hnd. apply NoDup_cons in Hnd as [Hcn Hnd].
      destruct (IH h d h' Hh Hd ltac:(done) Hnd E) as (Hwalk & Harr & Hnum).
      destruct (set_loop_frame_all inh inh_noref v (s2 :: rest) h _ h' E) as [_ Hfr].
      assert (Hc' : h' !! c = h !! c) by (by apply Hfr).
      assert (Hwc : forall q, walk inh h' (VRef c) (s :: q) = walk inh h' (VRef d) q).
      { intros q. by rewrite (walk_step inh h' c o s q (eq_trans Hc' Ho)), Hx. }
      split_and!.
      * rewrite Hwc. exact Hwalk.
      * exact Harr.
      * intros j Hj Hw0. destruct j as [|j].
        -- simpl take in Hw0. rewrite (walk_step inh h c o s _ Ho), Hx in Hw0. discriminate.
        -- simpl take in Hw0 |- *. rewrite (walk_step inh h c o s _ Ho), Hx in Hw0.
           destruct (Hnum j) as (l & o' & Hwl & Hle & Hl' & Ha'); [simpl in Hj |- *; lia|exact Hw0|].
           exists l, o'. split_and!; [|exact Hle|exact Hl'|exact Ha']. rewrite Hwc. exact Hwl.
Qed.

(** A copy exists only of a document value. *)
Lemma clone_of_doc (h : heap) (d : val) (oc : obj) : clone_of inh h d = Ok oc -> doc_val h d.
Proof.
  destruct d as [| | | | |l|]; simpl; try done.
  unfold clone_of, is_array_val, obj_spread. destruct (h !! l) eqn:Hl; [|by destruct (h !! l)].
  intros _. by eapply lookup_lt_Some.
Qed.

(** A reference read from the copy of the document is what the first
    segment reads in the document. *)
Lemma clone_get_ref (h : heap) (d : val) (oc : obj) (s : seg) (m : loc) :
  clone_of inh h d = Ok oc -> obj_get inh oc (key s) = VRef m -> walk inh h d [s] = Ok (VRef m).
Proof.
  intros Hc Hm. destruct d as [| | | |str|l|]; simpl in Hc.
  1-4: injection Hc as <-; by apply inh_noref in Hm.
  - injection Hc as <-. unfold obj_get in Hm. simpl own in Hm.
    destruct (assoc (key s) (string_props 0 str)) as [x|] eqn:E; [|by apply inh_noref in Hm].
    destruct (assoc_string_props str 0 (key s) x E) as (j & ch & _ & _ & ->). discriminate.
  - unfold clone_of, is_array_val, obj_spread in Hc.
    destruct (h !! l) as [o|] eqn:Ho; [|discriminate].
    rewrite (walk_step inh h l o s [] Ho). cbn [walk].
    destruct o as [es nm|ps]; injection Hc as <-; [|by rewrite Hm].
    unfold arr_spread, obj_get in Hm. simpl own in Hm.
    unfold obj_get, own. destruct (array_index (key s)) as [n|] eqn:Ea.
    + rewrite list_lookup_imap in Hm. destruct (es !! N.to_nat n) as [[x|]|] eqn:Ei; simpl in Hm.
      * by rewrite Hm.
      * by apply inh_noref in Hm.
      * destruct (String.eqb (key s) "length"); [discriminate|by apply inh_noref in Hm].
    + simpl in Hm. destruct (String.eqb (key s) "length"); [discriminate|by apply inh_noref in Hm].
  - discriminate.
Qed.

(** A run of [setValueAtPath] on a document without cycles that returns a
    result: the path reads the value written from it, and each proper
    prefix that read nothing in the document reads a container created by
    the run. *)
Lemma setValueAtPath_ok (h : heap) (d : val) (s : seg) (p' : path) (v : val) (h' : heap) (r : val) :
  wf_heap h -> acyclic h -> setValueAtPath inh h d (Some (s :: p')) v = Ok (h', r) ->
  walk inh h' r (s :: p') = Ok v /\
  (forall j, j + 1 < length (s :: p') -> walk inh h d (take (j + 1) (s :: p')) = Ok VUndef ->
     exists l o, walk inh h' r (take (j + 1) (s :: p')) = Ok (VRef l) /\ length h < l /\
                 h' !! l = Some o /\ is_arr o = seg_is_num ((s :: p') !! (j + 1))).
Proof.
  intros Hh Hac E.
  apply setValueAtPath_unfold in E as (oc & Hc & Hset & ->).
  pose proof (clone_of_doc h d oc Hc) as Hd.
  destruct (clone_ok inh inh_noref h d Hh Hd) as (oc' & Hc' & Hoc). rewrite Hc in Hc'. injection Hc' as <-.
  assert (Hwf1 : wf_heap (h ++ [oc])%list) by (by apply wf_heap_app).
  assert (Hoc1 : (h ++ [oc])%list !! length h = Some oc) by apply lookup_alloc.
  assert (Hlen1 : length h < length (h ++ [oc])%list) by (rewrite length_app; simpl; lia).
  assert (Hx : wf_val h (obj_get inh oc (key s))) by (by apply obj_get_wf).
  assert (Hnd : NoDup (chain_locs inh (h ++ [oc])%list (VRef (length h)) (s :: p'))).
  { destruct p' as [|s2 r]; [rewrite chain_locs_one; apply NoDup_singleton|].
    rewrite chain_locs_cons2, (get_prop_obj inh _ _ _ _ Hoc1).
    rewrite (chain_locs_ext inh inh_noref h oc Hh _ _ Hx). constructor.
    - intros Hin. apply (chain_locs_bound inh inh_noref h Hh _ _ _ Hx) in Hin. lia.
    - by apply chain_locs_nodup. }
  destruct (set_loop_ok v (s :: p') (h ++ [oc])%list (length h) h' Hwf1 Hlen1 ltac:(done) Hnd Hset)
    as (Hwalk & _ & Hnum).
  split; [exact Hwalk|].
  (* the first read from the copy, when the loop goes on: nothing, or a
     container of the document *)
  assert (Hfirst : p' <> [] -> obj_get inh oc (key s) = VUndef \/ exists m, obj_get inh oc (key s) = VRef m).
  { intros Hp. destruct p' as [|s2 r']; [done|].
    rewrite set_loop_cons2, (get_prop_obj inh _ _ _ _ Hoc1) in Hset. unfold mbind, res_bind in Hset.
    destruct (obj_get inh oc (key s)) as [| | | | |m|] eqn:Hy; [by left| | | | |by right; exists m|];
      exfalso; cbn [is_undef] in Hset; rewrite (get_prop_obj inh _ _ _ _ Hoc1), Hy in Hset;
      cbv beta iota in Hset;
      (refine (set_loop_nonref v _ _ _ _ _ _ Hset); [done|intros ?; discriminate]). }
  intros j Hj Hu.
  destruct (Hnum j Hj) as (l & o & Hl & Hle & Ho & Ha).
  { rewrite Nat.add_1_r in Hu |- *. simpl take in Hu |- *.
    rewrite (walk_step inh (h ++ [oc])%list (length h) oc s _ Hoc1).
    rewrite (walk_ext inh inh_noref h oc Hh _ _ Hx).
    destruct (Hfirst ltac:(destruct p'; simpl in Hj; [lia|done])) as [Hu0|[m Hm]].
    - rewrite Hu0. rewrite walk_nullish by done. by case_bool_decide.
    - rewrite Hm. rewrite <- (walk_app inh h [s] (take j p') d _ (clone_get_ref h d oc s m Hc Hm)).
      exact Hu. }
  exists l, o. split_and!; [exact Hl|rewrite length_app in Hle; simpl in Hle; lia|exact Ho|exact Ha].
Qed.

(** C2 (amended): for a document without cycles, whenever
    [setValueAtPath(obj, path, value)] returns a result instead of throwing,
    resolving the same path in that result gives the written value. *)
Theorem write_then_read_fidelity (h : heap) (d : val) (p : option path) (value : val)
    (h' : heap) (r : val) :
  wf_heap h -> acyclic h -> setValueAtPath inh h d p value = Ok (h', r) ->
  getValueAtPath inh h' r p = Ok value.
Proof.
  intros Hh Hac E. destruct p as [[|s p']|].
  - injection E as <- <-. reflexivity.
  - exact (proj1 (setValueAtPath_ok h d s p' value h' r Hh Hac E)).
  - injection E as <- <-. reflexivity.
Qed.


End Success.

Lemma write_then_read_fidelity_witness :
  exists h' r,
    setValueAtPath js_inherited doc_nested_heap doc_nested
      (Some [SStr "a"; SNum 1; SStr "map"; SStr "w"]) (VNum 5) = Ok (h', r) /\
    getValueAtPath js_inherited h' r (Some [SStr "a"; SNum 1; SStr "map"; SStr "w"]) = Ok (VNum 5).
Proof.
  destruct (setValueAtPath js_inherited doc_nested_heap doc_nested
              (Some [SStr "a"; SNum 1; SStr "map"; SStr "w"]) (VNum 5)) as [[h' r]| |] eqn:E;
    [|vm_compute in E; discriminate..].
  exists h', r. split; [reflexivity|].
  apply (write_then_read_fidelity js_inherited js_inherited_noref doc_nested_heap doc_nested _ _ h' r).
  - apply refs_backward_wf. vm_compute. reflexivity.
  - apply refs_backward_acyclic. vm_compute. reflexivity.
  - exact E.
Defined.


